(** * image-converter: a shallow embedding of the batch PNG/JPEG -> AVIF
    converter and the properties of its specification.

    Source files embedded here:
    - [core/formats.py]   (module [Formats])
    - [core/converter.py] (module [Converter])
    - [utils/batch.py]    (module [Batch])
    - [cli/app.py]        (module [Cli])

    Conventions.  Python [str] is a Rocq [string] (a byte string; the
    suffixes the program tests are ASCII, so lower-casing is modelled on
    ASCII letters).  A [pathlib.Path] is modelled in its POSIX flavour as an
    absolute flag and the list of its components.  Code that touches the file
    system, the image codec or the logger runs in the monad [M]: a state
    (the outside world and the log) is threaded through, and a Python
    exception is the result [Raise msg]. *)

From stdpp Require Import base decidable numbers list strings gmap sorting pretty.
From Stdlib Require Import Ascii.

Local Open Scope Z_scope.
Set Warnings "-clear-no-such-hyp".

(** ** Python strings *)

Module Str.

(** [s.rfind(c)] for a one-character needle: the highest index at which
    [c] occurs, or [-1]. *)
Fixpoint rfind (c : ascii) (s : string) : Z :=
  match s with
  | EmptyString => -1
  | String a s' =>
      let r := rfind c s' in
      if 0 <=? r then r + 1 else if Ascii.eqb a c then 0 else -1
  end.

(** [s[i:]] and [s[:i]] for an index [0 <= i]. *)
Fixpoint from (i : nat) (s : string) : string :=
  match i, s with
  | O, _ => s
  | S i', String _ s' => from i' s'
  | S _, EmptyString => EmptyString
  end.

Fixpoint upto (i : nat) (s : string) : string :=
  match i, s with
  | O, _ => EmptyString
  | S i', String a s' => String a (upto i' s')
  | S _, EmptyString => EmptyString
  end.

Definition lower_ascii (a : ascii) : ascii :=
  let n := N_of_ascii a in
  if ((65 <=? n) && (n <=? 90))%N then ascii_of_N (n + 32) else a.

Definition upper_ascii (a : ascii) : ascii :=
  let n := N_of_ascii a in
  if ((97 <=? n) && (n <=? 122))%N then ascii_of_N (n - 32) else a.

Fixpoint map (f : ascii -> ascii) (s : string) : string :=
  match s with
  | EmptyString => EmptyString
  | String a s' => String (f a) (map f s')
  end.

(** [s.lower()] and [s.upper()]. *)
Definition lower : string -> string := map lower_ascii.
Definition upper : string -> string := map upper_ascii.

(** [s.startswith(t)]. *)
Fixpoint startswith (t s : string) : bool :=
  match t, s with
  | EmptyString, _ => true
  | String a t', String b s' => Ascii.eqb a b && startswith t' s'
  | String _ _, EmptyString => false
  end.

(** [t in s]: [t] occurs somewhere in [s]. *)
Fixpoint contains (t s : string) : bool :=
  startswith t s ||
  match s with
  | EmptyString => false
  | String _ s' => contains t s'
  end.

(** [c in s] for a character. *)
Fixpoint has_char (c : ascii) (s : string) : bool :=
  match s with
  | EmptyString => false
  | String a s' => Ascii.eqb a c || has_char c s'
  end.

(** [s.split(c)]. *)
Fixpoint split (c : ascii) (s : string) : list string :=
  match s with
  | EmptyString => [EmptyString]
  | String a s' =>
      if Ascii.eqb a c then EmptyString :: split c s'
      else match split c s' with
           | [] => [String a EmptyString]
           | w :: ws => String a w :: ws
           end
  end.

(** [sep.join(l)]. *)
Fixpoint join (sep : string) (l : list string) : string :=
  match l with
  | [] => EmptyString
  | [x] => x
  | x :: l' => x +:+ sep +:+ join sep l'
  end.

End Str.

(** ** [pathlib.Path], POSIX flavour *)

Module Pathlib.

Record Path := mkPath { is_abs : bool; parts : list string }.

#[global] Instance Path_eq_dec : EqDecision Path.
Proof. solve_decision. Defined.

#[global] Instance Path_countable : Countable Path.
Proof.
  refine (inj_countable' (fun p => (is_abs p, parts p))
                         (fun x => mkPath x.1 x.2) _).
  by intros [].
Defined.

(** The components a parsed path can have: not empty, not ["."], and
    without a separator. *)
Definition wf_part (s : string) : bool :=
  negb (bool_decide (s = "")) && negb (bool_decide (s = "."))
  && negb (Str.has_char "/" s).

Definition wf_path (p : Path) : Prop := Forall (fun s => wf_part s = true) (parts p).

Definition wf_pathb (p : Path) : bool := forallb wf_part (parts p).

(** [Path(s)]: split at the separators, drop the empty and the ["."]
    components. *)
Definition of_string (s : string) : Path :=
  mkPath (Str.startswith "/" s) (filter (fun x => x ≠ "" ∧ x ≠ ".") (Str.split "/" s)).

(** [str(p)]. *)
Definition to_string (p : Path) : string :=
  match is_abs p, parts p with
  | false, [] => "."
  | false, l => Str.join "/" l
  | true, l => "/" +:+ Str.join "/" l
  end.

(** [p.name]: the final component, [""] when there is none. *)
Definition name (p : Path) : string := List.last (parts p) "".

(** [p.suffix]: the final component's last extension, dot included. *)
Definition suffix (p : Path) : string :=
  let name := name p in
  let i := Str.rfind "." name in
  if (0 <? i) && (i <? Z.of_nat (String.length name) - 1)
  then Str.from (Z.to_nat i) name else "".

(** [p.stem]: the final component without its suffix. *)
Definition stem (p : Path) : string :=
  let name := name p in
  let i := Str.rfind "." name in
  if (0 <? i) && (i <? Z.of_nat (String.length name) - 1)
  then Str.upto (Z.to_nat i) name else name.

(** [p.parent]: the path without its final component; a path without
    components is its own parent. *)
Definition parent (p : Path) : Path :=
  mkPath (is_abs p) (removelast (parts p)).

(** [p / s] for a string [s]: an absolute right operand replaces [p]. *)
Definition joinpath (p : Path) (s : string) : Path :=
  let q := of_string s in
  if is_abs q then q else mkPath (is_abs p) (parts p ++ parts q).

(** The key [sorted] compares paths by, as CPython 3.10 and 3.11 do: the
    tuple of parts, the root first. *)
Definition cparts (p : Path) : list string :=
  if is_abs p then "/" :: parts p else parts p.

(** Python's list comparison [l1 <= l2]: the first differing pair of
    elements decides, a proper prefix is smaller. *)
Fixpoint parts_leb (l1 l2 : list string) : bool :=
  match l1, l2 with
  | [], _ => true
  | _ :: _, [] => false
  | x :: l1', y :: l2' =>
      if decide (x = y) then parts_leb l1' l2' else String.leb x y
  end.

Definition path_le (p q : Path) : Prop := parts_leb (cparts p) (cparts q) = true.

#[global] Instance path_le_dec p q : Decision (path_le p q).
Proof. unfold path_le. apply _. Defined.

End Pathlib.
Import Pathlib.

(** ** core/formats.py *)

Module Formats.

Definition SUPPORTED_INPUT_FORMATS : gset string := {[ ".png"; ".jpg"; ".jpeg" ]}.

Definition OUTPUT_FORMAT : string := ".avif".

Definition is_supported_format (file_path : Path) : bool :=
  bool_decide (Str.lower (suffix file_path) ∈ SUPPORTED_INPUT_FORMATS).

Definition get_output_path (input_path : Path) (output_dir : option Path) : Path :=
  let output_name := stem input_path +:+ OUTPUT_FORMAT in
  match output_dir with
  | Some d => joinpath d output_name
  | None => joinpath (parent input_path) output_name
  end.

End Formats.
Import Formats.

(** ** The runtime: exceptions, the outside world, the logger *)

Module Runtime.

(** What evaluating a Python expression yields: a value, or an exception
    ([Exception] and its subclasses) carrying [str(e)]. *)
Inductive Res (A : Type) : Type :=
| Ok (a : A)
| Raise (msg : string).
Arguments Ok {A} a.
Arguments Raise {A} msg.

(** [logging] levels the program logs at. *)
Inductive Level := DEBUG | INFO | WARNING | ERROR.

(** A decoded [PIL.Image]: its mode, its [info] dictionary and the pixel
    payload, which the converter never inspects. *)
Record Image := mkImage {
  mode : string;
  info : gmap string string;
  pixels : string
}.

(** The calls that mutate the outside world or enter the codec, recorded
    in the order they are made. *)
Inductive Call :=
| CallMkdir (d : Path)
| CallOpen (p : Path)
| CallConvert (m : string)
| CallSave (out : Path) (fmt : string) (quality : Z) (icc : option string)
| CallOpenLog (f : string).

(** The collaborators, over a type [W] of states of the outside world:
    the file system as [pathlib] shows it, the Pillow codec, the log-file
    handler, the thread scheduler and the float formatter. *)
Class OS (W : Type) := {
  (** [p.exists()], [p.is_file()], [p.is_dir()], [p.resolve()] *)
  os_exists : Path -> W -> bool;
  os_is_file : Path -> W -> bool;
  os_is_dir : Path -> W -> bool;
  os_resolve : Path -> W -> Path;
  (** [list(p.glob(pattern))], in the order the file system enumerates *)
  os_glob : Path -> string -> W -> list Path;
  (** [d.mkdir(parents=True, exist_ok=True)] *)
  os_mkdir : Path -> W -> Res unit * W;
  (** [Image.open(p)], [img.convert(mode)],
      [img.save(out, fmt, quality=q[, icc_profile=icc])] *)
  pil_open : Path -> W -> Res Image * W;
  pil_convert : string -> Image -> W -> Res Image * W;
  pil_save : Image -> Path -> string -> Z -> option string -> W -> Res unit * W;
  (** [logging.FileHandler(f, mode="w", encoding="utf-8")] *)
  os_open_log : string -> W -> Res unit * W;
  (** which of the pending futures [as_completed] yields next *)
  os_next_done : list Path -> W -> nat;
  (** [f"{successful / total * 100:.1f}"] for [total <> 0] *)
  fmt_rate : Z -> Z -> string
}.

Record St (W : Type) := mkSt {
  world : W;
  calls : list Call;
  logs : list (Level * string)
}.
Arguments mkSt {W} _ _ _.
Arguments world {W} _.
Arguments calls {W} _.
Arguments logs {W} _.

Definition M (W A : Type) : Type := St W -> Res A * St W.

Section monad.
Context {W : Type}.

Definition ret {A} (a : A) : M W A := fun st => (Ok a, st).

Definition bind {A B} (m : M W A) (k : A -> M W B) : M W B :=
  fun st => match m st with
            | (Ok a, st') => k a st'
            | (Raise e, st') => (Raise e, st')
            end.

(** [try: body  except Exception as e: handler(e)] *)
Definition try_except {A} (body : M W A) (handler : string -> M W A) : M W A :=
  fun st => match body st with
            | (Ok a, st') => (Ok a, st')
            | (Raise e, st') => handler e st'
            end.

(** What [future.result()] will give for a task: run it, keep its
    exception. *)
Definition capture {A} (m : M W A) : M W (Res A) :=
  fun st => let '(r, st') := m st in (Ok r, st').

(** A query of the world. *)
Definition ask {A} (f : W -> A) : M W A := fun st => (Ok (f (world st)), st).

(** A recorded call into the world. *)
Definition call {A} (c : Call) (f : W -> Res A * W) : M W A :=
  fun st => let '(r, w') := f (world st) in
            (r, mkSt w' (calls st ++ [c]) (logs st)).

(** [logger.log(level, msg)]; the handlers swallow their own errors. *)
Definition log (l : Level) (msg : string) : M W unit :=
  fun st => (Ok tt, mkSt (world st) (calls st) (logs st ++ [(l, msg)])).

(** [for x in l: acc = body(acc, x)] *)
Fixpoint for_each {A B} (l : list A) (body : B -> A -> M W B) (acc : B) : M W B :=
  match l with
  | [] => ret acc
  | x :: l' => bind (body acc x) (for_each l' body)
  end.

End monad.

Notation "x <- m ;; k" := (bind m (fun x => k))
  (at level 100, m at next level, right associativity).
Notation "m ;;; k" := (bind m (fun _ => k))
  (at level 100, right associativity).

End Runtime.
Import Runtime.

(** ** core/converter.py *)

Module Converter.

Record ConversionResult := mkConversionResult {
  input_path : Path;
  output_path : option Path;
  success : bool;
  error_message : option string
}.

Definition filename (r : ConversionResult) : string := name (input_path r).

Record ImageConverter := mkImageConverter { quality : Z }.

Definition DEFAULT_QUALITY : Z := 80.
Definition MIN_QUALITY : Z := 0.
Definition MAX_QUALITY : Z := 100.

Section converter.
Context {W : Type} `{!OS W}.

Definition _validate_quality (quality : Z) : M W Z :=
  if quality <? MIN_QUALITY then
    log WARNING ("Quality " +:+ pretty quality +:+ " below minimum, using "
                 +:+ pretty MIN_QUALITY) ;;;
    ret MIN_QUALITY
  else if quality >? MAX_QUALITY then
    log WARNING ("Quality " +:+ pretty quality +:+ " above maximum, using "
                 +:+ pretty MAX_QUALITY) ;;;
    ret MAX_QUALITY
  else ret quality.

Definition __init__ (quality : Z) : M W ImageConverter :=
  q <- _validate_quality quality ;;
  ret (mkImageConverter q).

(** Python truthiness of [img.info.get("icc_profile")]. *)
Definition truthy (o : option string) : bool :=
  match o with
  | Some s => negb (bool_decide (s = ""))
  | None => false
  end.

Definition _convert_image (self : ImageConverter) (input_path output_path : Path)
  : M W unit :=
  img <- call (CallOpen input_path) (pil_open input_path) ;;
  let icc_profile := info img !! "icc_profile" in
  let to_mode m := call (CallConvert m) (pil_convert m img) in
  output_img <-
    (if bool_decide (mode img = "RGBA") then ret img
     else if bool_decide (mode img = "P")
             && bool_decide (is_Some (info img !! "transparency"))
     then to_mode "RGBA"
     else if bool_decide (mode img = "L") || bool_decide (mode img = "LA") then
       if bool_decide (mode img = "LA") then to_mode "RGBA" else to_mode "RGB"
     else if negb (bool_decide (mode img = "RGB")) then to_mode "RGB" else ret img) ;;
  let icc := if truthy icc_profile then icc_profile else None in
  call (CallSave output_path "AVIF" (quality self) icc)
       (pil_save output_img output_path "AVIF" (quality self) icc) ;;;
  log DEBUG ("Converted " +:+ name input_path +:+ " -> " +:+ name output_path
             +:+ " (quality=" +:+ pretty (quality self) +:+ ")").

Definition convert (self : ImageConverter) (input_path : Path)
    (output_dir : option Path) (overwrite : bool) : M W ConversionResult :=
  input_exists <- ask (os_exists input_path) ;;
  if negb input_exists then
    ret (mkConversionResult input_path None false
           (Some ("File not found: " +:+ to_string input_path)))
  else if negb (is_supported_format input_path) then
    ret (mkConversionResult input_path None false
           (Some ("Unsupported format: " +:+ suffix input_path)))
  else
    let output_path := get_output_path input_path output_dir in
    output_exists <- ask (os_exists output_path) ;;
    if output_exists && negb overwrite then
      ret (mkConversionResult input_path (Some output_path) false
             (Some ("Output exists (use --overwrite): " +:+ to_string output_path)))
    else
      match output_dir with
      | Some d => call (CallMkdir d) (os_mkdir d)
      | None => ret tt
      end ;;;
      try_except
        (_convert_image self input_path output_path ;;;
         ret (mkConversionResult input_path (Some output_path) true None))
        (fun e =>
           log ERROR ("Failed to convert " +:+ to_string input_path) ;;;
           ret (mkConversionResult input_path (Some output_path) false (Some e))).

End converter.

End Converter.
Import Converter.

(** ** utils/batch.py *)

Module Batch.

Record BatchResult := mkBatchResult {
  total : Z;
  successful : Z;
  failed : Z;
  skipped : Z;
  results : list ConversionResult
}.

Record BatchProcessor := mkBatchProcessor {
  converter : ImageConverter;
  max_workers : Z
}.

Definition DEFAULT_WORKERS : Z := 4.

Definition __init__ (converter : ImageConverter) (max_workers : Z) : BatchProcessor :=
  mkBatchProcessor converter (Z.max 1 max_workers).

(** [sorted(l)] on paths. *)
Definition sorted (l : list Path) : list Path := merge_sort path_le l.

Section batch.
Context {W : Type} `{!OS W}.

(** The body of [for path in paths] in [collect_files]. *)
Definition collect_path (recursive : bool) (files : list Path) (path : Path)
  : M W (list Path) :=
  is_file <- ask (os_is_file path) ;;
  if is_file then
    if bool_decide (Str.lower (suffix path) ∈ SUPPORTED_INPUT_FORMATS)
    then ret (files ++ [path])
    else log WARNING ("Skipping unsupported file: " +:+ to_string path) ;;;
         ret files
  else
    is_dir <- ask (os_is_dir path) ;;
    if is_dir then
      let pattern := if recursive then "**/*" else "*" in
      for_each (elements SUPPORTED_INPUT_FORMATS)
        (fun files ext =>
           found <- ask (os_glob path (pattern +:+ ext)) ;;
           found_upper <- ask (os_glob path (pattern +:+ Str.upper ext)) ;;
           ret (files ++ found ++ found_upper))
        files
    else
      log WARNING ("Path not found: " +:+ to_string path) ;;;
      ret files.

(** The body of [for f in files]: the pair is [(seen, unique_files)]. *)
Definition keep_first (acc : gset Path * list Path) (f : Path)
  : M W (gset Path * list Path) :=
  resolved <- ask (os_resolve f) ;;
  if bool_decide (resolved ∉ acc.1)
  then ret (acc.1 ∪ {[ resolved ]}, acc.2 ++ [f])
  else ret acc.

Definition collect_files (self : BatchProcessor) (paths : list Path)
    (recursive : bool) : M W (list Path) :=
  files <- for_each paths (collect_path recursive) [] ;;
  acc <- for_each files keep_first (∅, []) ;;
  ret (sorted acc.2).

(** The body of [for i, future in enumerate(as_completed(...), 1)], for
    a future of [file_path] whose [future.result()] is [outcome].  The
    statements after [future.result()] inside the [try] do not raise,
    so the [except] branch is the branch of a raising future. *)
Definition record_completion (n : nat) (show_progress : bool) (i : Z)
    (file_path : Path) (outcome : Res ConversionResult) (result : BatchResult)
  : M W BatchResult :=
  match outcome with
  | Ok conv_result =>
      let results' := results result ++ [conv_result] in
      let result' :=
        if success conv_result
        then mkBatchResult (total result) (successful result + 1) (failed result)
                           (skipped result) results'
        else mkBatchResult (total result) (successful result) (failed result + 1)
                           (skipped result) results' in
      let status := if success conv_result then "✓" else "✗" in
      let level := if success conv_result then INFO else WARNING in
      (if show_progress then
         let msg := "[" +:+ pretty i +:+ "/" +:+ pretty n +:+ "] " +:+ status
                    +:+ " " +:+ filename conv_result in
         let msg := if truthy (error_message conv_result)
                    then msg +:+ " - " +:+ default "" (error_message conv_result)
                    else msg in
         log level msg
       else ret tt) ;;;
      ret result'
  | Raise e =>
      let result' :=
        mkBatchResult (total result) (successful result) (failed result + 1)
          (skipped result)
          (results result ++ [mkConversionResult file_path None false (Some e)]) in
      (if show_progress then
         log ERROR ("[" +:+ pretty i +:+ "/" +:+ pretty n +:+ "] ✗ "
                    +:+ name file_path +:+ " - " +:+ e)
       else ret tt) ;;;
      ret result'
  end.

(** The worker pool and the loop over [as_completed].  One task per
    file is pending; the scheduler names the pending task that completes
    next, the task runs ([convert], its exception kept by the future) and
    the loop body records it.  Tasks take effect one at a time, in
    completion order; [fuel] is the number of pending tasks. *)
Fixpoint as_completed_loop (self : BatchProcessor) (output_dir : option Path)
    (overwrite show_progress : bool) (n : nat) (fuel : nat) (pending : list Path)
    (i : Z) (result : BatchResult) : M W BatchResult :=
  match fuel with
  | O => ret result
  | S fuel' =>
      k <- ask (fun w => (os_next_done pending w mod length pending)%nat) ;;
      match pending !! k with
      | None => ret result
      | Some file_path =>
          outcome <- capture (convert (converter self) file_path output_dir overwrite) ;;
          result' <- record_completion n show_progress i file_path outcome result ;;
          as_completed_loop self output_dir overwrite show_progress n fuel'
            (delete k pending) (i + 1) result'
      end
  end.

Definition process (self : BatchProcessor) (files : list Path)
    (output_dir : option Path) (overwrite show_progress : bool) : M W BatchResult :=
  let result := mkBatchResult (Z.of_nat (length files)) 0 0 0 [] in
  if bool_decide (files = []) then
    log WARNING "No files to process" ;;;
    ret result
  else
    log INFO ("Processing " +:+ pretty (length files) +:+ " file(s) with "
              +:+ pretty (max_workers self) +:+ " worker(s)") ;;;
    as_completed_loop self output_dir overwrite show_progress
      (length files) (length files) files 1 result.


End batch.

End Batch.
Import Batch.

(** ** utils/logger.py and cli/app.py *)

Module Cli.

(** The namespace [parser.parse_args(argv)] returns. *)
Record Args := mkArgs {
  input : list Path;
  output : option Path;
  overwrite : bool;
  quality : Z;
  parallel : Z;
  no_recursive : bool;
  verbose : bool;
  log_file : option string;
  quiet : bool
}.

Section cli.
Context {W : Type} `{!OS W}.

(** [setup_logger]: the handlers are configured; only opening the log
    file reaches the outside world. *)
Definition setup_logger (verbose : bool) (log_file : option string) : M W unit :=
  match log_file with
  | Some f => if truthy log_file then call (CallOpenLog f) (os_open_log f) else ret tt
  | None => ret tt
  end.

(** [f"{result.success_rate:.1f}"] *)
Definition success_rate_text (result : BatchResult) : string :=
  if total result =? 0 then "0.0" else fmt_rate (successful result) (total result).

Definition rule : string := "==================================================".

Definition print_summary (result : BatchResult) : M W unit :=
  log INFO "" ;;;
  log INFO rule ;;;
  log INFO "CONVERSION SUMMARY" ;;;
  log INFO rule ;;;
  log INFO ("  Total files:    " +:+ pretty (total result)) ;;;
  log INFO ("  Successful:     " +:+ pretty (successful result)) ;;;
  log INFO ("  Failed:         " +:+ pretty (failed result)) ;;;
  log INFO ("  Success rate:   " +:+ success_rate_text result +:+ "%") ;;;
  log INFO rule ;;;
  if failed result >? 0 then
    log INFO "" ;;;
    log WARNING "Failed conversions:" ;;;
    for_each (results result)
      (fun _ conv_result =>
         if negb (success conv_result) then
           log WARNING ("  - " +:+ filename conv_result +:+ ": "
                        +:+ default "None" (error_message conv_result))
         else ret tt)
      tt
  else ret tt.

(** [main], from the point where [parser.parse_args(argv)] has returned
    [args]; [version] is the package's [__version__]. *)
Definition main (version : string) (args : Args) : M W Z :=
  setup_logger (verbose args) (log_file args) ;;;
  log INFO ("Image Converter v" +:+ version) ;;;
  log INFO ("Quality: " +:+ pretty (quality args) +:+ " | Workers: "
            +:+ pretty (parallel args)) ;;;
  converter <- Converter.__init__ (quality args) ;;
  let processor := Batch.__init__ converter (parallel args) in
  files <- collect_files processor (input args) (negb (no_recursive args)) ;;
  if bool_decide (files = []) then
    log ERROR "No supported image files found." ;;;
    log INFO ("Supported formats: "
              +:+ Str.join ", " (merge_sort String.le (elements SUPPORTED_INPUT_FORMATS))) ;;;
    ret 1
  else
    log INFO ("Found " +:+ pretty (length files) +:+ " image(s) to convert") ;;;
    log INFO "" ;;;
    result <- process processor files (output args) (overwrite args)
                (negb (quiet args)) ;;
    print_summary result ;;;
    if (failed result >? 0) && (successful result =? 0) then ret 1
    else if failed result >? 0 then ret 2
    else ret 0.

End cli.

End Cli.
Import Cli.

(** ** What the specification says, in its own words *)

Module Spec.

(** "Quality: an integer in [0,100], clamped at construction time". *)
Definition clamp_quality (q : Z) : Z := Z.max 0 (Z.min 100 q).

(** "0 = all conversions succeeded; 1 = all dispatched conversions failed;
    2 = partial failure", for the results of a batch that dispatched at
    least one conversion. *)
Definition exit_code (rs : list ConversionResult) : Z :=
  if forallb success rs then 0
  else if forallb (fun r => negb (success r)) rs then 1
  else 2.

(** The canonical forms of a list of paths, as a set. *)
Definition canonical_set (canon : Path -> Path) (l : list Path) : gset Path :=
  list_to_set (canon <$> l).

(** "First occurrence in the scan order is kept": [f] sits at an index
    of [scan] before which no entry has its canonical form. *)
Definition first_occurrence (canon : Path -> Path) (scan : list Path) (f : Path) : Prop :=
  exists i, scan !! i = Some f /\
            forall j g, (j < i)%nat -> scan !! j = Some g -> canon g <> canon f.

End Spec.

(** ** The values the read-only code computes, as functions of the world *)

Module Pure.

(** A computation that never raises, changes nothing but the log, and
    whose value is [f] of the world. *)
Definition reads {W A} (m : M W A) (f : W -> A) : Prop :=
  forall st, exists lg,
    m st = (Ok (f (world st)), mkSt (world st) (calls st) (logs st ++ lg)).

Section pure.
Context {W : Type} `{!OS W}.

(** What one round of [for path in paths] adds to [files]. *)
Definition scan_path (recursive : bool) (w : W) (files : list Path) (path : Path)
  : list Path :=
  if os_is_file path w then
    if bool_decide (Str.lower (suffix path) ∈ SUPPORTED_INPUT_FORMATS)
    then files ++ [path] else files
  else if os_is_dir path w then
    let pattern := if recursive then "**/*" else "*" in
    fold_left (fun files ext =>
                 files ++ os_glob path (pattern +:+ ext) w
                       ++ os_glob path (pattern +:+ Str.upper ext) w)
              (elements SUPPORTED_INPUT_FORMATS) files
  else files.

(** The list [files] of [collect_files] before deduplication: the scan
    order. *)
Definition scan (w : W) (paths : list Path) (recursive : bool) : list Path :=
  fold_left (scan_path recursive w) paths [].

(** The entries of [l] whose canonical form is neither in [seen] nor
    that of an earlier entry. *)
Fixpoint firsts (canon : Path -> Path) (seen : gset Path) (l : list Path) : list Path :=
  match l with
  | [] => []
  | f :: l' =>
      if bool_decide (canon f ∉ seen)
      then f :: firsts canon (seen ∪ {[ canon f ]}) l'
      else firsts canon seen l'
  end.

Definition collect (w : W) (paths : list Path) (recursive : bool) : list Path :=
  sorted (firsts (fun f => os_resolve f w) ∅ (scan w paths recursive)).

End pure.

(** The result the loop of [process] records for a future. *)
Definition completion (file_path : Path) (outcome : Res ConversionResult)
  : ConversionResult :=
  match outcome with
  | Ok conv_result => conv_result
  | Raise e => mkConversionResult file_path None false (Some e)
  end.

Definition count_success (rs : list ConversionResult) : Z :=
  Z.of_nat (length (List.filter success rs)).

Definition count_failure (rs : list ConversionResult) : Z :=
  Z.of_nat (length (List.filter (fun r => negb (success r)) rs)).

End Pure.

(** ** A small concrete world, to run the program on *)

Module Toy.

Inductive Node := Dir | File (img : option Image).

(** The entries of the file system, newest first; paths without
    components are the current directory or the root. *)
Definition World : Type := list (Path * Node).

Fixpoint node_at (p : Path) (w : World) : option Node :=
  match w with
  | [] => if bool_decide (parts p = []) then Some Dir else None
  | (q, n) :: w' => if bool_decide (q = p) then Some n else node_at p w'
  end.

Definition is_file_node (o : option Node) : bool :=
  match o with Some (File _) => true | _ => false end.

Definition is_dir_node (o : option Node) : bool :=
  match o with Some Dir => true | _ => false end.

Definition ends_with (ext s : string) : bool :=
  Str.startswith (String.rev ext) (String.rev s).

(** Only the two patterns the collector builds: ["*" + ext], the files
    directly inside [d], and ["**/*" + ext], which this world answers for
    the files one or two levels below [d]. *)
Definition glob (d : Path) (pattern : string) (w : World) : list Path :=
  let deep := Str.startswith "**/" pattern in
  let ext := Str.from (if deep then 4 else 1) pattern in
  List.filter
    (fun q => is_file_node (node_at q w) && ends_with ext (name q)
              && (bool_decide (parent q = d)
                  || (deep && bool_decide (parent (parent q) = d)
                      && negb (bool_decide (parts (parent q) = [])))))
    (w.*1).

Definition mkdir (d : Path) (w : World) : Res unit * World :=
  match node_at d w with
  | Some Dir => (Ok tt, w)
  | Some (File _) => (Raise ("[Errno 17] File exists: '" +:+ to_string d +:+ "'"), w)
  | None => (Ok tt, (d, Dir) :: w)
  end.

Definition open (p : Path) (w : World) : Res Image * World :=
  match node_at p w with
  | Some (File (Some img)) => (Ok img, w)
  | Some (File None) =>
      (Raise ("cannot identify image file '" +:+ to_string p +:+ "'"), w)
  | _ => (Raise ("[Errno 2] No such file or directory: '" +:+ to_string p +:+ "'"), w)
  end.

Definition save (img : Image) (out : Path) (fmt : string) (q : Z)
    (icc : option string) (w : World) : Res unit * World :=
  if is_dir_node (node_at (parent out) w)
  then (Ok tt, (out, File (Some img)) :: w)
  else (Raise ("[Errno 2] No such file or directory: '" +:+ to_string out +:+ "'"), w).

(** One decimal, rounded half up. *)
Definition rate (successful total : Z) : string :=
  let x := (successful * 2000 + total) / (2 * total) in
  pretty (x / 10) +:+ "." +:+ pretty (x mod 10).

#[global] Instance toy_os : OS World := {|
  os_exists p w := bool_decide (is_Some (node_at p w));
  os_is_file p w := is_file_node (node_at p w);
  os_is_dir p w := is_dir_node (node_at p w);
  os_resolve p w := p;
  os_glob := glob;
  os_mkdir := mkdir;
  pil_open := open;
  pil_convert m img w := (Ok (mkImage m (info img) (pixels img)), w);
  pil_save := save;
  os_open_log f w := (Ok tt, w);
  os_next_done pending w := 0%nat;
  fmt_rate := rate
|}.

Definition rgb : Image := mkImage "RGB" ∅ "pixels".

(** [pics/] holds two images, one of them already converted, and a
    text file; [out] is a regular file, [README] has no extension. *)
Definition disk : World :=
  [ (of_string "pics", Dir);
    (of_string "pics/a.png", File (Some rgb));
    (of_string "pics/a.avif", File (Some rgb));
    (of_string "pics/b.JPG", File (Some rgb));
    (of_string "pics/notes.txt", File None);
    (of_string "out", File None);
    (of_string "README", File None) ].

Definition start : St World := mkSt disk [] [].

Definition run {A} (m : M World A) : Res A := (m start).1.

End Toy.

(** ** utils/logger.py: the colouring formatter *)

Module Logger.

(** [s.replace(old, new, 1)]: the first occurrence of [old] in [s] is
    replaced; an empty [old] occurs at the start. *)
Fixpoint replace_first (old new s : string) : string :=
  if Str.startswith old s then new +:+ Str.from (String.length old) s
  else match s with
       | EmptyString => EmptyString
       | String a s' => String a (replace_first old new s')
       end.

Definition ESC : string := String "027"%char EmptyString.

(** [logging.DEBUG], [INFO], [WARNING], [ERROR], [CRITICAL] are 10 to 50. *)
Definition COLORS : gmap Z string :=
  {[ 10 := ESC +:+ "[36m"; 20 := ESC +:+ "[32m"; 30 := ESC +:+ "[33m";
     40 := ESC +:+ "[31m"; 50 := ESC +:+ "[35m" ]}.

Definition RESET : string := ESC +:+ "[0m".

(** The two fields of a [logging.LogRecord] the formatter reads. *)
Record LogRecord := mkLogRecord { levelno : Z; levelname : string }.

(** [ColoredFormatter.format]; [base_format] is
    [self.base_formatter.format]. *)
Definition format (base_format : LogRecord -> string) (record : LogRecord) : string :=
  let message := base_format record in
  let color := default "" (COLORS !! levelno record) in
  if negb (bool_decide (color = "")) then
    replace_first (levelname record) (color +:+ levelname record +:+ RESET) message
  else message.

End Logger.

(** ** What the code may do to the outside world *)

Module Frame.

(** The calls one [convert] of [p] may make. *)
Definition convert_may_call (self : ImageConverter) (p : Path) (od : option Path)
    (c : Call) : Prop :=
  match c with
  | CallMkdir d => od = Some d
  | CallOpen q => q = p
  | CallConvert m => m = "RGBA" \/ m = "RGB"
  | CallSave out fmt q _ =>
      out = get_output_path p od /\ fmt = "AVIF" /\ q = Converter.quality self
  | CallOpenLog _ => False
  end.

(** The source image carries transparency: an alpha channel or a
    transparent palette entry. *)
Definition has_alpha (img : Image) : bool :=
  bool_decide (mode img = "RGBA")
  || bool_decide (mode img = "P") && bool_decide (is_Some (info img !! "transparency"))
  || bool_decide (mode img = "LA").

(** The [icc_profile] argument of [save]. *)
Definition saved_icc (img : Image) : option string :=
  if truthy (info img !! "icc_profile") then info img !! "icc_profile" else None.

(** The codec honours the mode it is asked for. *)
Definition convert_gives_mode {W} `{!OS W} : Prop :=
  forall m img w img' w', pil_convert m img w = (Ok img', w') -> mode img' = m.

(** The step of [convert] between the guards and the [try]. *)
Definition ensure_dir {W} `{!OS W} (od : option Path) : M W unit :=
  match od with
  | Some d => call (CallMkdir d) (os_mkdir d)
  | None => ret tt
  end.


(** What a directory contributes to the scan. *)
Definition globbed {W} `{!OS W} (w : W) (recursive : bool) (d f : Path) : Prop :=
  exists ext, ext ∈ SUPPORTED_INPUT_FORMATS /\
    let pattern := if recursive then "**/*" else "*" in
    (f ∈ os_glob d (pattern +:+ ext) w \/ f ∈ os_glob d (pattern +:+ Str.upper ext) w).

(** The line [print_summary] logs for a failed result. *)
Definition failure_line (r : ConversionResult) : Level * string :=
  (WARNING, "  - " +:+ filename r +:+ ": " +:+ default "None" (error_message r)).

End Frame.

(** * Properties *)

(** ** Facts about strings and paths *)

Section path_facts.

Lemma app_nil_l (t : string) : "" +:+ t = t.
Proof. reflexivity. Qed.

Lemma app_cons a (s t : string) : String a s +:+ t = String a (s +:+ t).
Proof. reflexivity. Qed.

Local Ltac str_simpl := simpl; rewrite ?app_nil_l, ?app_cons; simpl.

Lemma has_char_app c s t :
  Str.has_char c (s +:+ t) = Str.has_char c s || Str.has_char c t.
Proof. induction s as [|a s IH]; str_simpl; [done|]. by rewrite IH, orb_assoc. Qed.

Lemma has_char_upto c i s :
  Str.has_char c s = false -> Str.has_char c (Str.upto i s) = false.
Proof.
  revert i. induction s as [|a s IH]; intros [|i]; simpl; try done.
  intros [-> ?]%orb_false_iff. simpl. by apply IH.
Qed.

Lemma split_no_sep c s : Str.has_char c s = false -> Str.split c s = [s].
Proof.
  induction s as [|a s IH]; simpl; [done|].
  intros [-> Hs]%orb_false_iff. by rewrite (IH Hs).
Qed.

Lemma upto_from i s : Str.upto i s +:+ Str.from i s = s.
Proof.
  revert i. induction s as [|a s IH]; intros [|i]; str_simpl; try done.
  f_equal. apply IH.
Qed.

Lemma upto_app s t : Str.upto (String.length s) (s +:+ t) = s.
Proof. induction s as [|a s IH]; str_simpl; [by destruct t|]. by rewrite IH. Qed.

Lemma from_app s t : Str.from (String.length s) (s +:+ t) = t.
Proof. induction s as [|a s IH]; str_simpl; done. Qed.

Lemma length_app s t :
  String.length (s +:+ t) = (String.length s + String.length t)%nat.
Proof. induction s as [|a s IH]; str_simpl; [done|]. by rewrite IH. Qed.

Lemma rfind_none c s : Str.has_char c s = false -> Str.rfind c s = -1.
Proof.
  induction s as [|a s IH]; simpl; [done|].
  intros [-> Hs]%orb_false_iff. by rewrite (IH Hs).
Qed.

Lemma rfind_ge c s : -1 <= Str.rfind c s.
Proof.
  induction s as [|a s IH]; simpl; [done|].
  destruct (Z.leb_spec 0 (Str.rfind c s)); [lia|]. destruct (Ascii.eqb a c); lia.
Qed.

(** The last occurrence of [c] in [s ++ c :: t], when [t] has none, is at
    [len s]. *)
Lemma rfind_app_last c s t :
  Str.has_char c t = false ->
  Str.rfind c (s +:+ String c t) = Z.of_nat (String.length s).
Proof.
  intros Ht. induction s as [|a s IH]; str_simpl.
  - by rewrite (rfind_none _ _ Ht), Ascii.eqb_refl.
  - rewrite IH. destruct (Z.leb_spec 0 (Z.of_nat (String.length s))); lia.
Qed.

Lemma upto_nonempty i s : (0 < i)%nat -> s <> "" -> Str.upto i s <> "".
Proof. destruct i, s; simpl; try done; lia. Qed.

Lemma wf_part_name p : wf_path p -> name p = "" \/ wf_part (name p) = true.
Proof.
  unfold wf_path, name. destruct p as [a l]; simpl.
  induction l as [|x l IH]; [by left|].
  intros [Hx Hl]%Forall_cons. destruct l as [|y l]; [by right|].
  by apply IH.
Qed.

Lemma name_no_sep p : wf_path p -> Str.has_char "/" (name p) = false.
Proof.
  intros [-> | H]%wf_part_name; [done|].
  unfold wf_part in H. apply andb_true_iff in H as [_ H].
  by apply negb_true_iff in H.
Qed.

Lemma stem_no_sep p : wf_path p -> Str.has_char "/" (stem p) = false.
Proof.
  intros Hp. unfold stem. pose proof (name_no_sep p Hp).
  case_match; [by apply has_char_upto | done].
Qed.

Lemma stem_suffix p : stem p +:+ suffix p = name p.
Proof.
  unfold stem, suffix. case_match; [apply upto_from|].
  generalize (name p). intros s. induction s; str_simpl; [done|]. by f_equal.
Qed.

Lemma stem_nonempty p : name p <> "" -> stem p <> "".
Proof.
  intros Hn. unfold stem. case_match eqn:E; [|done].
  apply andb_true_iff in E as [E%Z.ltb_lt _]. apply upto_nonempty; [lia|done].
Qed.

(** A string without separator that is neither empty nor ["."] parses to
    the one-component relative path. *)
Lemma of_string_single s :
  Str.has_char "/" s = false -> s <> "" -> s <> "." ->
  of_string s = mkPath false [s].
Proof.
  intros Hs H1 H2. unfold of_string. rewrite (split_no_sep _ _ Hs).
  f_equal.
  - destruct s as [|a s]; [done|]. cbn [Str.has_char] in Hs.
    apply orb_false_iff in Hs as [Ha _].
    change (Ascii.eqb "/" a && true = false). by rewrite Ascii.eqb_sym, Ha.
  - rewrite filter_cons_True by done. done.
Qed.

Lemma joinpath_single d s :
  Str.has_char "/" s = false -> s <> "" -> s <> "." ->
  joinpath d s = mkPath (is_abs d) (parts d ++ [s]).
Proof. intros. unfold joinpath. by rewrite of_string_single. Qed.

Lemma parent_snoc a l s : parent (mkPath a (l ++ [s])) = mkPath a l.
Proof. unfold parent. simpl. by rewrite removelast_last. Qed.

Lemma name_snoc a l s : name (mkPath a (l ++ [s])) = s.
Proof. unfold name. simpl. apply last_last. Qed.

Lemma output_name_ok p :
  wf_path p ->
  let n := stem p +:+ OUTPUT_FORMAT in
  Str.has_char "/" n = false /\ n <> "" /\ n <> ".".
Proof.
  intros Hp n. subst n. split_and!.
  - by rewrite has_char_app, (stem_no_sep p Hp).
  - destruct (stem p); done.
  - intros E. apply (f_equal String.length) in E.
    rewrite length_app in E. simpl in E. lia.
Qed.

Lemma get_output_path_eq p o :
  wf_path p ->
  get_output_path p o =
    let d := default (parent p) o in
    mkPath (is_abs d) (parts d ++ [stem p +:+ OUTPUT_FORMAT]).
Proof.
  intros Hp. destruct (output_name_ok p Hp) as (?&?&?).
  unfold get_output_path. destruct o; simpl; by rewrite joinpath_single.
Qed.

Lemma suffix_snoc_ext a l s :
  s <> "" -> suffix (mkPath a (l ++ [s +:+ ".avif"])) = ".avif"
             /\ stem (mkPath a (l ++ [s +:+ ".avif"])) = s.
Proof.
  intros Hs. unfold suffix, stem. rewrite name_snoc.
  change (s +:+ ".avif") with (s +:+ String "." "avif").
  rewrite rfind_app_last by done. rewrite length_app. simpl String.length.
  assert (0 < String.length s)%nat by (destruct s; simpl; [done|lia]).
  rewrite Nat2Z.id.
  assert ((0 <? Z.of_nat (String.length s))
          && (Z.of_nat (String.length s) <? Z.of_nat (String.length s + 5) - 1)
          = true) as -> by (apply andb_true_iff; split; apply Z.ltb_lt; lia).
  by rewrite from_app, upto_app.
Qed.

End path_facts.

(** ** Facts about the monad *)

Ltac run_m :=
  unfold bind, ret, ask, log, call, try_except, capture; simpl.

Section string_search.

Lemma startswith_app t s : Str.startswith t (t +:+ s) = true.
Proof.
  induction t as [|a t IH]; [done|].
  change (Ascii.eqb a a && Str.startswith t (t +:+ s) = true).
  by rewrite Ascii.eqb_refl, IH.
Qed.

Lemma contains_prefix t s : Str.contains t (t +:+ s) = true.
Proof.
  destruct (t +:+ s) eqn:E; simpl; rewrite <- E, startswith_app; done.
Qed.

Lemma contains_app pre t s : Str.contains t (pre +:+ t +:+ s) = true.
Proof.
  induction pre as [|a pre IH]; [rewrite app_nil_l; apply contains_prefix|].
  change (Str.startswith t (String a (pre +:+ t +:+ s))
          || Str.contains t (pre +:+ t +:+ s) = true).
  rewrite IH. apply orb_true_r.
Qed.

End string_search.

(** ** The Single-Unit Converter *)

Section converter_facts.
Context {W : Type} `{!OS W}.
Implicit Types (self : ImageConverter) (p : Path) (od : option Path) (st : St W).

Lemma convert_not_found self p od ow st :
  os_exists p (world st) = false ->
  convert self p od ow st =
    (Ok (mkConversionResult p None false (Some ("File not found: " +:+ to_string p))), st).
Proof. intros E. unfold convert. run_m. by rewrite E. Qed.

Lemma convert_unsupported self p od ow st :
  os_exists p (world st) = true ->
  is_supported_format p = false ->
  convert self p od ow st =
    (Ok (mkConversionResult p None false (Some ("Unsupported format: " +:+ suffix p))), st).
Proof. intros E1 E2. unfold convert. run_m. by rewrite E1, E2. Qed.

Lemma convert_output_exists self p od st :
  os_exists p (world st) = true ->
  is_supported_format p = true ->
  os_exists (get_output_path p od) (world st) = true ->
  convert self p od false st =
    (Ok (mkConversionResult p (Some (get_output_path p od)) false
           (Some ("Output exists (use --overwrite): "
                  +:+ to_string (get_output_path p od)))), st).
Proof.
  intros E1 E2 E3. unfold convert. run_m. rewrite E1, E2. simpl. by rewrite E3.
Qed.

(** Past the three early returns, the result carries the derived output
    path. *)
Lemma convert_output_path self p od ow st r st' :
  os_exists p (world st) = true ->
  is_supported_format p = true ->
  convert self p od ow st = (Ok r, st') ->
  output_path r = Some (get_output_path p od).
Proof.
  intros E1 E2. unfold convert. run_m. rewrite E1, E2. simpl.
  destruct (_ && negb ow); [by intros [= <- _]|].
  destruct od as [d|]; simpl.
  - destruct (os_mkdir d (world st)) as [[[]|e] w']; [|done].
    destruct (_convert_image _ _ _ _) as [[[]|e] st1]; by intros [= <- _].
  - destruct (_convert_image _ _ _ _) as [[[]|e] st1]; by intros [= <- _].
Qed.

(** [convert] raises exactly when it reaches the creation of the output
    directory and that call raises. *)
Lemma convert_raises_iff self p od ow st e st' :
  convert self p od ow st = (Raise e, st') <->
  exists d w',
    od = Some d /\ os_exists p (world st) = true /\ is_supported_format p = true /\
    os_exists (get_output_path p od) (world st) && negb ow = false /\
    os_mkdir d (world st) = (Raise e, w') /\
    st' = mkSt w' (calls st ++ [CallMkdir d]) (logs st).
Proof.
  unfold convert. run_m.
  destruct (os_exists p (world st)); simpl;
    [|split; [done|by intros (?&?&?&?&?)]].
  destruct (is_supported_format p); simpl;
    [|split; [done|by intros (?&?&?&?&?&?)]].
  destruct (_ && negb ow);
    [split; [done|by intros (?&?&?&?&?&?&?)]|].
  destruct od as [d|]; simpl.
  - destruct (os_mkdir d (world st)) as [[[]|e'] w1] eqn:Em.
    + split; [by destruct (_convert_image _ _ _ _) as [[[]|e1] st1]|].
      intros (?&?&?&?&?&?&Hm&?). simplify_eq. congruence.
    + split.
      * intros [= -> <-]. by exists d, w1.
      * intros (?&?&?&?&?&?&Hm&?). simplify_eq. congruence.
  - split; [by destruct (_convert_image _ _ _ _) as [[[]|e1] st1]|].
    by intros (?&?&?&?).
Qed.

(** A failure that [convert] returns comes with a message. *)
Lemma convert_failure_message self p od ow st r st' :
  convert self p od ow st = (Ok r, st') ->
  input_path r = p /\ (success r = false -> is_Some (error_message r)).
Proof.
  assert (Hdone : forall o b m (s1 : St W),
    (Ok (mkConversionResult p o b m), s1) = (Ok r, st') ->
    (b = false -> is_Some m) ->
    input_path r = p /\ (success r = false -> is_Some (error_message r))).
  { intros o b m s1 [= <- _] Hm. done. }
  unfold convert. run_m.
  destruct (os_exists p (world st)); simpl; [|intros E; eapply Hdone; eauto].
  destruct (is_supported_format p); simpl; [|intros E; eapply Hdone; eauto].
  destruct (_ && negb ow); [intros E; eapply Hdone; eauto|].
  destruct od as [d|]; simpl.
  - destruct (os_mkdir d (world st)) as [[[]|e'] w1]; [|done].
    destruct (_convert_image _ _ _ _) as [[[]|e1] st1];
      intros E; eapply Hdone; eauto; done.
  - destruct (_convert_image _ _ _ _) as [[[]|e1] st1];
      intros E; eapply Hdone; eauto; done.
Qed.

Lemma init_spec q st :
  exists lg,
    Converter.__init__ q st =
      (Ok (mkImageConverter (Spec.clamp_quality q)),
       mkSt (world st) (calls st) (logs st ++ lg)).
Proof.
  unfold Converter.__init__, _validate_quality, Spec.clamp_quality,
    MIN_QUALITY, MAX_QUALITY. run_m.
  destruct (Z.ltb_spec q 0); [|destruct (Z.gtb_spec q 100)]; simpl.
  - eexists [_]. do 3 f_equal. lia.
  - eexists [_]. do 3 f_equal. lia.
  - exists []. rewrite app_nil_r. destruct st. simpl. do 3 f_equal. lia.
Qed.

End converter_facts.

(** ** The claims about the Format Registry and the Converter *)

Lemma wf_pathb_true p : wf_pathb p = true -> wf_path p.
Proof.
  unfold wf_pathb, wf_path. induction (parts p) as [|x l IH]; simpl; [constructor|].
  intros [Hx Hl]%andb_true_iff. constructor; auto.
Qed.

(** C7. [get_output_path] is a function of its two arguments alone (it
    lives outside the monad: no world, no log).  It replaces the extension
    of the final component by [.avif]: the new name is the stem followed by
    [.avif], where stem and suffix make up the old name, and when the input
    has a final component the result's suffix is [.avif] and its stem is
    the input's.  The result's parent is the input's parent when no output
    directory is given, and is [d] when [d] is given, whatever the
    directory of the input. *)
Theorem get_output_path_parent (p d : Path) :
  wf_path p ->
  name (get_output_path p None) = stem p +:+ ".avif" /\
  name (get_output_path p (Some d)) = stem p +:+ ".avif" /\
  stem p +:+ suffix p = name p /\
  (name p <> "" ->
   forall o, suffix (get_output_path p o) = ".avif" /\
             stem (get_output_path p o) = stem p) /\
  parent (get_output_path p None) = parent p /\
  parent (get_output_path p (Some d)) = d.
Proof.
  intros Hp. rewrite !get_output_path_eq by done. simpl.
  rewrite !name_snoc, !parent_snoc. split_and!; try done.
  - apply stem_suffix.
  - intros Hn o. rewrite get_output_path_eq by done. simpl.
    apply suffix_snoc_ext. by apply stem_nonempty.
  - by destruct d.
Qed.

Lemma get_output_path_parent_witness :
  wf_path (of_string "a/b/photo.png") /\
  parent (get_output_path (of_string "a/b/photo.png") (Some (of_string "/out")))
  = of_string "/out".
Proof.
  assert (H : wf_path (of_string "a/b/photo.png"))
    by (apply wf_pathb_true; vm_compute; reflexivity).
  split; [exact H|].
  apply (get_output_path_parent (of_string "a/b/photo.png") (of_string "/out") H).
Defined.

Section converter_claims.
Context {W : Type} `{!OS W}.
Implicit Types (self : ImageConverter) (p : Path) (od : option Path) (st : St W).

(** C3. The decision sequence of [convert], first match first: a path
    that does not exist gives a failure mentioning "File not found" and no
    output path; an existing path with an unsupported extension gives a
    failure mentioning "Unsupported format" and no output path; neither
    touches the world.  Only for an existing, supported input is the
    output path derived by [get_output_path], and every result returned
    from there on carries it. *)
Theorem convert_decision_sequence self p od ow st :
  (os_exists p (world st) = false ->
   exists msg,
     convert self p od ow st = (Ok (mkConversionResult p None false (Some msg)), st)
     /\ Str.contains "File not found" msg = true) /\
  (os_exists p (world st) = true -> is_supported_format p = false ->
   exists msg,
     convert self p od ow st = (Ok (mkConversionResult p None false (Some msg)), st)
     /\ Str.contains "Unsupported format" msg = true) /\
  (os_exists p (world st) = true -> is_supported_format p = true ->
   forall r st', convert self p od ow st = (Ok r, st') ->
                 output_path r = Some (get_output_path p od)).
Proof.
  split_and!.
  - intros E. eexists. split; [by apply convert_not_found|].
    apply (contains_app "" "File not found").
  - intros E1 E2. eexists. split; [by apply convert_unsupported|].
    apply (contains_app "" "Unsupported format").
  - intros E1 E2 r st'. by apply convert_output_path.
Qed.

(** C4. An existing, supported input whose derived output path exists,
    converted with [overwrite = false]: the result is a failure that
    carries the output path and whose message mentions "overwrite", and
    the final state is the initial one: the file system is unchanged, no
    call was made (no directory created, codec not entered, nothing
    saved) and nothing was logged. *)
Theorem convert_output_exists_no_mutation self p od st :
  os_exists p (world st) = true ->
  is_supported_format p = true ->
  os_exists (get_output_path p od) (world st) = true ->
  exists msg,
    convert self p od false st =
      (Ok (mkConversionResult p (Some (get_output_path p od)) false (Some msg)), st)
    /\ Str.contains "overwrite" msg = true.
Proof.
  intros E1 E2 E3. eexists. split; [by apply convert_output_exists|].
  apply (contains_app "Output exists (use --" "overwrite").
Qed.

(** C10. A path whose final component has an empty suffix is not a
    supported format; so [convert] on such a path, when it exists, returns
    a failure mentioning "Unsupported format", without output path, and
    attempts nothing (the state is unchanged). *)
Theorem extensionless_is_unsupported self p od ow st :
  suffix p = "" ->
  is_supported_format p = false /\
  (os_exists p (world st) = true ->
   exists msg,
     convert self p od ow st = (Ok (mkConversionResult p None false (Some msg)), st)
     /\ Str.contains "Unsupported format" msg = true).
Proof.
  intros Hs.
  assert (E : is_supported_format p = false).
  { unfold is_supported_format. rewrite Hs. by vm_compute. }
  split; [done|]. intros Hex. eexists. split; [by apply convert_unsupported|].
  apply (contains_app "" "Unsupported format").
Qed.

(** C8. Construction clamps the quality into [0, 100] and touches
    nothing but the log.  The converter built from 150 is the converter
    built from 100, and the one built from -5 is the one built from 0, so
    every [convert] call on one is the same computation as on the other.
    The quality is a field of the converter value, which [convert] only
    reads. *)
Theorem quality_clamped_at_construction (st1 st2 : St W) :
  (forall q, exists c st',
      Converter.__init__ q st1 = (Ok c, st')
      /\ Converter.quality c = Spec.clamp_quality q
      /\ 0 <= Converter.quality c <= 100
      /\ world st' = world st1 /\ calls st' = calls st1) /\
  (exists c1 c2,
      (Converter.__init__ 150 st1).1 = Ok c1 /\ (Converter.__init__ 100 st2).1 = Ok c2
      /\ c1 = c2
      /\ forall p od ow st, convert c1 p od ow st = convert c2 p od ow st) /\
  (exists c1 c2,
      (Converter.__init__ (-5) st1).1 = Ok c1 /\ (Converter.__init__ 0 st2).1 = Ok c2
      /\ c1 = c2
      /\ forall p od ow st, convert c1 p od ow st = convert c2 p od ow st).
Proof.
  split_and!.
  - intros q. destruct (init_spec q st1) as [lg ->]. eexists _, _.
    split; [reflexivity|]. unfold Spec.clamp_quality. simpl. split_and!; try done; lia.
  - by exists (mkImageConverter 100), (mkImageConverter 100).
  - by exists (mkImageConverter 0), (mkImageConverter 0).
Qed.

End converter_claims.

(** C1, at a failing input.  In the toy world [out] is a regular file; the
    input [pics/a.png] exists and is supported, and its output
    [out/a.avif] does not exist.  [convert] reaches the creation of the
    output directory, which raises; the call sits before the [try], so the
    exception leaves [convert]: no [ConversionResult] is returned. *)
Theorem convert_mkdir_failure_escapes :
  convert (mkImageConverter 80) (of_string "pics/a.png") (Some (of_string "out")) false
    Toy.start
  = (Raise "[Errno 17] File exists: 'out'",
     mkSt Toy.disk [CallMkdir (of_string "out")] []).
Proof. vm_compute. reflexivity. Qed.

Lemma convert_decision_sequence_witness :
  (os_exists (of_string "nope.png") (world Toy.start) = false /\
   exists msg,
     convert (mkImageConverter 80) (of_string "nope.png") None false Toy.start
     = (Ok (mkConversionResult (of_string "nope.png") None false (Some msg)), Toy.start)
     /\ Str.contains "File not found" msg = true) /\
  ((os_exists (of_string "pics/notes.txt") (world Toy.start) = true /\
    is_supported_format (of_string "pics/notes.txt") = false) /\
   exists msg,
     convert (mkImageConverter 80) (of_string "pics/notes.txt") None false Toy.start
     = (Ok (mkConversionResult (of_string "pics/notes.txt") None false (Some msg)),
        Toy.start)
     /\ Str.contains "Unsupported format" msg = true) /\
  ((os_exists (of_string "pics/b.JPG") (world Toy.start) = true /\
    is_supported_format (of_string "pics/b.JPG") = true) /\
   forall r st',
     convert (mkImageConverter 80) (of_string "pics/b.JPG") None false Toy.start
     = (Ok r, st') ->
     output_path r = Some (get_output_path (of_string "pics/b.JPG") None)).
Proof.
  assert (H1 : os_exists (of_string "nope.png") (world Toy.start) = false)
    by (vm_compute; reflexivity).
  assert (H2 : os_exists (of_string "pics/notes.txt") (world Toy.start) = true)
    by (vm_compute; reflexivity).
  assert (H3 : is_supported_format (of_string "pics/notes.txt") = false)
    by (vm_compute; reflexivity).
  assert (H4 : os_exists (of_string "pics/b.JPG") (world Toy.start) = true)
    by (vm_compute; reflexivity).
  assert (H5 : is_supported_format (of_string "pics/b.JPG") = true)
    by (vm_compute; reflexivity).
  split; [split; [exact H1|]|split; [split; [by split|]|split; [by split|]]].
  - exact (proj1 (convert_decision_sequence (mkImageConverter 80)
                    (of_string "nope.png") None false Toy.start) H1).
  - exact (proj1 (proj2 (convert_decision_sequence (mkImageConverter 80)
                           (of_string "pics/notes.txt") None false Toy.start)) H2 H3).
  - exact (proj2 (proj2 (convert_decision_sequence (mkImageConverter 80)
                           (of_string "pics/b.JPG") None false Toy.start)) H4 H5).
Defined.

Lemma convert_output_exists_no_mutation_witness :
  (os_exists (of_string "pics/a.png") (world Toy.start) = true /\
   is_supported_format (of_string "pics/a.png") = true /\
   os_exists (get_output_path (of_string "pics/a.png") None) (world Toy.start) = true) /\
  exists msg,
    convert (mkImageConverter 80) (of_string "pics/a.png") None false Toy.start
    = (Ok (mkConversionResult (of_string "pics/a.png")
             (Some (get_output_path (of_string "pics/a.png") None)) false (Some msg)),
       Toy.start)
    /\ Str.contains "overwrite" msg = true.
Proof.
  assert (H1 : os_exists (of_string "pics/a.png") (world Toy.start) = true)
    by (vm_compute; reflexivity).
  assert (H2 : is_supported_format (of_string "pics/a.png") = true)
    by (vm_compute; reflexivity).
  assert (H3 : os_exists (get_output_path (of_string "pics/a.png") None)
                 (world Toy.start) = true)
    by (vm_compute; reflexivity).
  split; [by split_and!|].
  exact (convert_output_exists_no_mutation (mkImageConverter 80)
           (of_string "pics/a.png") None Toy.start H1 H2 H3).
Defined.

Lemma extensionless_is_unsupported_witness :
  (suffix (of_string "README") = "" /\
   os_exists (of_string "README") (world Toy.start) = true) /\
  is_supported_format (of_string "README") = false /\
  exists msg,
    convert (mkImageConverter 80) (of_string "README") None false Toy.start
    = (Ok (mkConversionResult (of_string "README") None false (Some msg)), Toy.start)
    /\ Str.contains "Unsupported format" msg = true.
Proof.
  assert (H1 : suffix (of_string "README") = "") by (vm_compute; reflexivity).
  assert (H2 : os_exists (of_string "README") (world Toy.start) = true)
    by (vm_compute; reflexivity).
  split; [by split|].
  destruct (extensionless_is_unsupported (mkImageConverter 80)
              (of_string "README") None false Toy.start H1) as [Hu Hc].
  split; [exact Hu|exact (Hc H2)].
Defined.

(** ** Read-only computations *)

Section reads_facts.
Context {W : Type}.

Lemma reads_ret {A} (a : A) : Pure.reads (W:=W) (ret a) (fun _ => a).
Proof. intros st. exists []. run_m. rewrite app_nil_r. by destruct st. Qed.

Lemma reads_ask {A} (f : W -> A) : Pure.reads (ask f) f.
Proof. intros st. exists []. run_m. rewrite app_nil_r. by destruct st. Qed.

Lemma reads_log l msg : Pure.reads (W:=W) (log l msg) (fun _ => tt).
Proof. intros st. by exists [(l, msg)]. Qed.

Lemma reads_bind {A B} (m : M W A) (k : A -> M W B) f g :
  Pure.reads m f -> (forall a, Pure.reads (k a) (g a)) ->
  Pure.reads (bind m k) (fun w => g (f w) w).
Proof.
  intros Hm Hk st. destruct (Hm st) as [lg1 E1].
  destruct (Hk (f (world st)) (mkSt (world st) (calls st) (logs st ++ lg1)))
    as [lg2 E2]. simpl in E2.
  exists (lg1 ++ lg2). unfold bind. rewrite E1, E2. by rewrite app_assoc.
Qed.

Lemma reads_ext {A} (m : M W A) f g :
  Pure.reads m f -> (forall w, f w = g w) -> Pure.reads m g.
Proof. intros Hm E st. destruct (Hm st) as [lg ->]. exists lg. by rewrite E. Qed.

Lemma reads_for_each {A B} (l : list A) (body : B -> A -> M W B) f :
  (forall acc x, Pure.reads (body acc x) (f acc x)) ->
  forall acc,
    Pure.reads (for_each l body acc) (fun w => fold_left (fun b x => f b x w) l acc).
Proof.
  intros Hb. induction l as [|x l IH]; intros acc; simpl.
  - apply reads_ret.
  - eapply reads_ext; [eapply reads_bind; [apply Hb|apply IH]|]. done.
Qed.

End reads_facts.

(** ** The File Collector *)

Section collector_facts.
Context {W : Type} `{!OS W}.

Lemma collect_path_reads recursive files path :
  Pure.reads (collect_path recursive files path)
             (fun w => Pure.scan_path recursive w files path).
Proof.
  intros st. unfold collect_path, Pure.scan_path.
  unfold bind at 1, ask at 1. simpl.
  destruct (os_is_file path (world st)).
  { case_bool_decide.
    - apply (reads_ret (files ++ [path]) st).
    - eexists [_]. reflexivity. }
  unfold bind at 1, ask at 1. simpl.
  destruct (os_is_dir path (world st)).
  - set (pattern := if recursive then "**/*" else "*").
    apply (reads_for_each (elements SUPPORTED_INPUT_FORMATS) _
             (fun files ext w => files ++ os_glob path (pattern +:+ ext) w
                                 ++ os_glob path (pattern +:+ Str.upper ext) w)).
    intros acc ext st'. exists []. run_m. rewrite app_nil_r. by destruct st'.
  - eexists [_]. reflexivity.
Qed.

Lemma scan_reads paths recursive :
  Pure.reads (for_each paths (collect_path recursive) [])
             (fun w => Pure.scan w paths recursive).
Proof.
  apply (reads_for_each paths (collect_path recursive)
           (fun files path w => Pure.scan_path recursive w files path)).
  intros acc x. apply collect_path_reads.
Qed.

Lemma dedup_reads files :
  forall seen uniq,
    Pure.reads (for_each files keep_first (seen, uniq))
      (fun w => (seen ∪ Spec.canonical_set (fun f => os_resolve f w) files,
                 uniq ++ Pure.firsts (fun f => os_resolve f w) seen files)).
Proof.
  unfold Spec.canonical_set.
  induction files as [|f files IH]; intros seen uniq st; simpl.
  - exists []. run_m. rewrite !app_nil_r, (right_id_L ∅ (∪)). by destruct st.
  - unfold bind at 1, keep_first at 1. run_m.
    case_bool_decide as Hf.
    + destruct (IH (seen ∪ {[os_resolve f (world st)]}) (uniq ++ [f]) st) as [lg ->].
      exists lg. rewrite <- app_assoc. simpl. do 3 f_equal. set_solver.
    + destruct (IH seen uniq st) as [lg ->].
      exists lg. do 3 f_equal. try apply dec_stable in Hf. set_solver.
Qed.

Lemma collect_files_reads self paths recursive :
  Pure.reads (collect_files self paths recursive)
             (fun w => Pure.collect w paths recursive).
Proof.
  intros st. unfold collect_files, Pure.collect, bind.
  destruct (scan_reads paths recursive st) as [lg1 ->].
  destruct (dedup_reads (Pure.scan (world st) paths recursive) ∅ []
              (mkSt (world st) (calls st) (logs st ++ lg1))) as [lg2 E].
  simpl in E. rewrite E. exists (lg1 ++ lg2). unfold ret. simpl.
  by rewrite app_assoc.
Qed.

End collector_facts.

(** The entries [firsts] keeps. *)
Section firsts_facts.
Context (canon : Path -> Path).

Lemma firsts_fresh seen l x :
  x ∈ Pure.firsts canon seen l -> canon x ∉ seen.
Proof.
  revert seen. induction l as [|f l IH]; intros seen; simpl; [by intros ?%elem_of_nil|].
  case_bool_decide as Hf.
  - intros [->|Hx%IH]%elem_of_cons; [done|]. set_solver.
  - apply IH.
Qed.

Lemma firsts_NoDup seen l : NoDup (canon <$> Pure.firsts canon seen l).
Proof.
  revert seen. induction l as [|f l IH]; intros seen; simpl; [constructor|].
  case_bool_decide as Hf; [|apply IH].
  rewrite fmap_cons. constructor; [|apply IH].
  intros (y & Hy & Hin%firsts_fresh)%list_elem_of_fmap. set_solver.
Qed.

Lemma firsts_canonical_set seen l :
  Spec.canonical_set canon (Pure.firsts canon seen l)
  = Spec.canonical_set canon l ∖ seen.
Proof.
  unfold Spec.canonical_set.
  revert seen. induction l as [|f l IH]; intros seen; simpl; [set_solver|].
  case_bool_decide as Hf.
  - rewrite fmap_cons. simpl. rewrite IH. apply set_eq. intros y.
    destruct (decide (y = canon f)); set_solver.
  - rewrite IH. try apply dec_stable in Hf. set_solver.
Qed.

Lemma firsts_length l :
  length (Pure.firsts canon ∅ l) = size (Spec.canonical_set canon l).
Proof.
  rewrite <- (length_fmap canon).
  rewrite <- (size_list_to_set (C:=gset Path)) by apply firsts_NoDup.
  change (size (Spec.canonical_set canon (Pure.firsts canon ∅ l))
          = size (Spec.canonical_set canon l)).
  rewrite firsts_canonical_set. f_equal. set_solver.
Qed.

Lemma firsts_first_occurrence seen l x :
  x ∈ Pure.firsts canon seen l <->
  (canon x ∉ seen) /\ Spec.first_occurrence canon l x.
Proof.
  unfold Spec.first_occurrence.
  revert seen. induction l as [|f l IH]; intros seen; simpl.
  { split; [by intros ?%elem_of_nil|]. by intros (_&i&?&_). }
  case_bool_decide as Hf.
  - rewrite elem_of_cons, IH. split.
    + intros [->|(Hx&i&Hi&Hlt)].
      * split; [done|]. exists 0%nat. split; [done|]. intros; lia.
      * split; [set_solver|]. exists (S i). split; [done|].
        intros [|j] g Hj Hg; simplify_eq/=; [set_solver|].
        eapply Hlt; [|done]. lia.
    + intros (Hx&[|i]&Hi&Hlt); simplify_eq/=; [by left|]. right.
      split.
      * assert (canon f <> canon x) by (apply (Hlt 0%nat); [lia|done]).
        set_solver.
      * exists i. split; [done|]. intros j g Hj Hg. apply (Hlt (S j)); [lia|done].
  - try apply dec_stable in Hf. rewrite IH. split.
    + intros (Hx&i&Hi&Hlt). split; [done|]. exists (S i). split; [done|].
      intros [|j] g Hj Hg; simplify_eq/=; [intros E; apply Hx; by rewrite <- E|].
      eapply Hlt; [|done]. lia.
    + intros (Hx&[|i]&Hi&Hlt); simplify_eq/=; [done|].
      split; [done|]. exists i. split; [done|].
      intros j g Hj Hg. apply (Hlt (S j)); [lia|done].
Qed.

End firsts_facts.

(** ** The order [sorted] uses on paths *)

Section path_order.

Lemma leb_trans x y z :
  String.leb x y = true -> String.leb y z = true -> String.leb x z = true.
Proof.
  intros H1%Is_true_true H2%Is_true_true. apply Is_true_true.
  exact (transitivity (R:=String.le) H1 H2).
Qed.

Lemma parts_leb_total l1 l2 : parts_leb l1 l2 = true \/ parts_leb l2 l1 = true.
Proof.
  revert l2. induction l1 as [|x l1 IH]; intros [|y l2]; simpl; auto.
  repeat case_decide; simplify_eq; auto using String.leb_total.
Qed.

Lemma parts_leb_antisym l1 l2 :
  parts_leb l1 l2 = true -> parts_leb l2 l1 = true -> l1 = l2.
Proof.
  revert l2. induction l1 as [|x l1 IH]; intros [|y l2]; simpl; try done.
  repeat case_decide; simplify_eq; intros Ha Hb.
  - f_equal. by apply IH.
  - exfalso. eauto using String.leb_antisym.
Qed.

Lemma parts_leb_trans l1 l2 l3 :
  parts_leb l1 l2 = true -> parts_leb l2 l3 = true -> parts_leb l1 l3 = true.
Proof.
  revert l2 l3. induction l1 as [|x l1 IH]; intros [|y l2] [|z l3]; simpl; try done.
  repeat case_decide; simplify_eq; intros Ha Hb; eauto using leb_trans.
  exfalso. eauto using String.leb_antisym.
Qed.

Lemma path_le_total : Total path_le.
Proof. intros p q. apply parts_leb_total. Qed.

Lemma path_le_trans : Transitive path_le.
Proof. intros p q r. apply parts_leb_trans. Qed.

(** On well-formed paths the key is injective: a relative path cannot
    start with the component ["/"]. *)
Lemma cparts_inj p q : wf_path p -> wf_path q -> cparts p = cparts q -> p = q.
Proof.
  destruct p as [[] l1], q as [[] l2]; unfold wf_path, cparts; simpl;
    intros H1 H2 E; simplify_eq; try done.
  - apply Forall_cons in H2 as [H2 _]. done.
  - apply Forall_cons in H1 as [H1 _]. done.
Qed.

Lemma path_le_antisym p q :
  wf_path p -> wf_path q -> path_le p q -> path_le q p -> p = q.
Proof. intros Hp Hq H1 H2. apply cparts_inj; [done..|]. by apply parts_leb_antisym. Qed.

Lemma sorted_Sorted l : Sorted path_le (sorted l).
Proof. apply (Sorted_merge_sort path_le (Total0:=path_le_total)). Qed.

Lemma sorted_Permutation l : sorted l ≡ₚ l.
Proof. apply (merge_sort_Permutation path_le). Qed.

End path_order.

(** ** The claim about the File Collector *)

Section collector_claim.
Context {W : Type} `{!OS W}.

(** C5. [collect_files] never raises and only reads the file system.
    Whatever the order in which [glob] enumerates, with [scan] the list
    the first loop builds (the scan order) and [canon] the symlink-
    resolved absolute form: no two returned entries have the same
    canonical form; the returned entries are exactly the first
    occurrences in scan order; the returned list is sorted by path; its
    length is the number of distinct canonical forms; and its order is
    determined by its entries: any sorted arrangement of them is the
    returned list. *)
Theorem collect_files_unique_sorted self (paths : list Path) (recursive : bool)
    (st : St W) :
  let canon := fun f => os_resolve f (world st) in
  exists scan out lg0 lg,
    for_each paths (collect_path recursive) [] st
      = (Ok scan, mkSt (world st) (calls st) (logs st ++ lg0)) /\
    collect_files self paths recursive st
      = (Ok out, mkSt (world st) (calls st) (logs st ++ lg)) /\
    NoDup (canon <$> out) /\
    (forall f, f ∈ out <-> Spec.first_occurrence canon scan f) /\
    Sorted path_le out /\
    length out = size (Spec.canonical_set canon scan) /\
    (Forall wf_path scan ->
     forall l, l ≡ₚ out -> Sorted path_le l -> l = out).
Proof.
  intros canon.
  destruct (scan_reads paths recursive st) as [lg0 E0].
  destruct (collect_files_reads self paths recursive st) as [lg E].
  exists (Pure.scan (world st) paths recursive),
         (Pure.collect (world st) paths recursive), lg0, lg.
  split; [done|]. split; [done|].
  unfold Pure.collect. fold canon.
  set (scan := Pure.scan (world st) paths recursive).
  pose proof (sorted_Permutation (Pure.firsts canon ∅ scan)) as HP.
  split_and!.
  - rewrite HP. apply firsts_NoDup.
  - intros f. rewrite HP, firsts_first_occurrence. set_solver.
  - apply sorted_Sorted.
  - rewrite HP. apply firsts_length.
  - intros Hwf l Hl Hs.
    assert (Hsub : forall x, x ∈ sorted (Pure.firsts canon ∅ scan) -> wf_path x).
    { intros x. rewrite HP. intros (_ & i & Hi & _)%firsts_first_occurrence.
      rewrite Forall_forall in Hwf. apply Hwf. by eapply list_elem_of_lookup_2. }
    apply (Sorted_unique_strong path_le (Transitive0:=path_le_trans));
      [|done|apply sorted_Sorted|done].
    intros x1 x2 Hx1 Hx2. apply path_le_antisym; [|by apply Hsub].
    apply Hsub. by rewrite <- Hl.
Qed.

End collector_claim.

(** ** The Batch Orchestrator *)

Section counts.

Lemma count_cons r rs :
  Pure.count_success (r :: rs) = (if success r then 1 else 0) + Pure.count_success rs /\
  Pure.count_failure (r :: rs) = (if success r then 0 else 1) + Pure.count_failure rs.
Proof.
  unfold Pure.count_success, Pure.count_failure. simpl.
  destruct (success r); simpl; lia.
Qed.

Lemma count_sum rs :
  Pure.count_success rs + Pure.count_failure rs = Z.of_nat (length rs).
Proof.
  induction rs as [|r rs IH]; [done|].
  destruct (count_cons r rs) as [-> ->]. simpl length. destruct (success r); lia.
Qed.

Lemma count_nonneg rs : 0 <= Pure.count_success rs /\ 0 <= Pure.count_failure rs.
Proof. unfold Pure.count_success, Pure.count_failure. lia. Qed.

Lemma count_failure_zero rs : Pure.count_failure rs = 0 <-> forallb success rs = true.
Proof.
  induction rs as [|r rs IH]; [done|].
  destruct (count_cons r rs) as [_ ->]. pose proof (count_nonneg rs).
  simpl. destruct (success r); simpl; [by rewrite <- IH|]. split; [lia|done].
Qed.

Lemma count_success_zero rs :
  Pure.count_success rs = 0 <-> forallb (fun r => negb (success r)) rs = true.
Proof.
  induction rs as [|r rs IH]; [done|].
  destruct (count_cons r rs) as [-> _]. pose proof (count_nonneg rs).
  simpl. destruct (success r); simpl; [|by rewrite <- IH]. split; [lia|done].
Qed.

(** The branch [main] takes on the counters is the exit code of the
    specification on the results. *)
Lemma exit_code_of_counts rs :
  (if (Pure.count_failure rs >? 0) && (Pure.count_success rs =? 0) then 1
   else if Pure.count_failure rs >? 0 then 2 else 0) = Spec.exit_code rs.
Proof.
  unfold Spec.exit_code. pose proof (count_nonneg rs) as [Hs Hf].
  pose proof (count_failure_zero rs) as HF. pose proof (count_success_zero rs) as HS.
  destruct (forallb success rs).
  - rewrite (proj2 HF eq_refl). done.
  - assert ((Pure.count_failure rs >? 0) = true) as ->.
    { apply Z.gtb_lt. destruct (decide (Pure.count_failure rs = 0)) as [E|E];
        [by apply HF in E|lia]. }
    simpl. destruct (forallb _ rs).
    + by rewrite (proj2 HS eq_refl).
    + destruct (Z.eqb_spec (Pure.count_success rs) 0) as [E|E]; [by apply HS in E|done].
Qed.

End counts.

Section orchestrator_facts.
Context {W : Type} `{!OS W}.
Implicit Types (self : BatchProcessor) (od : option Path) (st : St W).

Lemma record_completion_spec n sp i file_path outcome result st :
  exists lg,
    let x := Pure.completion file_path outcome in
    record_completion n sp i file_path outcome result st =
      (Ok (mkBatchResult (total result)
             (successful result + (if success x then 1 else 0))
             (failed result + (if success x then 0 else 1))
             (skipped result) (results result ++ [x])),
       mkSt (world st) (calls st) (logs st ++ lg)).
Proof.
  unfold record_completion. destruct outcome as [c|e]; simpl.
  - destruct sp; run_m.
    + destruct (success c); simpl; eexists [_]; by rewrite ?Z.add_0_r.
    + exists []. rewrite app_nil_r.
      destruct st, (success c); simpl; by rewrite ?Z.add_0_r.
  - destruct sp; run_m.
    + eexists [_]. by rewrite Z.add_0_r.
    + exists []. rewrite app_nil_r, Z.add_0_r. by destruct st.
Qed.

Lemma completion_input_path self file_path od ow st outcome st' :
  convert (converter self) file_path od ow st = (outcome, st') ->
  input_path (Pure.completion file_path outcome) = file_path.
Proof.
  destruct outcome as [c|e]; [|done]. intros E. simpl.
  by apply convert_failure_message in E as [? _].
Qed.

(** The loop terminates with one recorded result per pending task: the
    counters grow by the successes and the failures among them, [total]
    and [skipped] are untouched. *)
Lemma as_completed_loop_spec self od ow sp n pending :
  forall i result st,
  exists new st',
    as_completed_loop self od ow sp n (length pending) pending i result st =
      (Ok (mkBatchResult (total result)
             (successful result + Pure.count_success new)
             (failed result + Pure.count_failure new)
             (skipped result) (results result ++ new)), st') /\
    input_path <$> new ≡ₚ pending.
Proof.
  remember (length pending) as m eqn:Hm. revert pending Hm.
  induction m as [|m IH]; intros pending Hm i result st.
  - destruct pending; [|done]. exists [], st. simpl. unfold ret.
    rewrite app_nil_r. unfold Pure.count_success, Pure.count_failure. simpl.
    rewrite !Z.add_0_r. by destruct result.
  - simpl. unfold bind at 1, ask at 1. simpl. rewrite <- Hm.
    set (k := (os_next_done pending (world st) mod S m)%nat).
    assert (Hk : (k < length pending)%nat).
    { rewrite <- Hm. apply Nat.mod_upper_bound. lia. }
    destruct (lookup_lt_is_Some_2 pending k Hk) as [file_path Hf]. rewrite Hf.
    unfold bind at 1, capture at 1.
    destruct (convert (converter self) file_path od ow st) as [outcome st1] eqn:Ec.
    unfold bind at 1.
    destruct (record_completion_spec n sp i file_path outcome result st1)
      as [lg' Er']. simpl in Er'. rewrite Er'.
    set (x := Pure.completion file_path outcome) in *.
    destruct (IH (delete k pending)
                ltac:(rewrite length_delete by eauto; lia) (i + 1)
                (mkBatchResult (total result)
                   (successful result + (if success x then 1 else 0))
                   (failed result + (if success x then 0 else 1))
                   (skipped result) (results result ++ [x]))
                (mkSt (world st1) (calls st1) (logs st1 ++ lg')))
      as (new & st' & -> & HP).
    exists (x :: new), st'. simpl. split.
    + destruct (count_cons x new) as [-> ->]. rewrite <- app_assoc. simpl.
      do 2 f_equal. f_equal; lia.
    + change (input_path x :: (input_path <$> new) ≡ₚ pending). unfold x.
      rewrite (completion_input_path _ _ _ _ _ _ _ Ec), HP.
      symmetry. by apply delete_Permutation.
Qed.

(** [process] always returns: the result holds one entry per file, and
    its counters count the entries. *)
Lemma process_spec self files od ow sp st :
  exists new st',
    process self files od ow sp st =
      (Ok (mkBatchResult (Z.of_nat (length files)) (Pure.count_success new)
             (Pure.count_failure new) 0 new), st') /\
    input_path <$> new ≡ₚ files.
Proof.
  unfold process. case_bool_decide as Hf.
  - subst files. exists [], (mkSt (world st) (calls st)
                               (logs st ++ [(WARNING, "No files to process")])).
    done.
  - unfold bind at 1, log at 1. simpl.
    destruct (as_completed_loop_spec self od ow sp (length files) files 1
                (mkBatchResult (Z.of_nat (length files)) 0 0 0 [])
                (mkSt (world st) (calls st)
                   (logs st ++ [(INFO, "Processing " +:+ pretty (length files)
                      +:+ " file(s) with " +:+ pretty (max_workers self)
                      +:+ " worker(s)")])))
      as (new & st' & E & HP).
    exists new, st'. split; [|done]. simpl in E. rewrite E. done.
Qed.

End orchestrator_facts.

(** ** The claims about the Batch Orchestrator *)

Section orchestrator_claims.
Context {W : Type} `{!OS W}.
Implicit Types (self : BatchProcessor) (od : option Path) (st : St W).

(** C2. [process] returns for every list of files, and the returned
    result has [total] equal to the length of the list, one recorded
    result per file, and [total = successful + failed].  On the empty list
    it returns [total = 0, successful = 0, failed = 0] without dispatching
    anything: the world is unchanged and no call was made. *)
Theorem process_total self (files : list Path) od ow sp st :
  (exists r st',
     process self files od ow sp st = (Ok r, st') /\
     total r = Z.of_nat (length files) /\
     length (results r) = length files /\
     total r = successful r + failed r) /\
  (exists lg,
     process self [] od ow sp st =
       (Ok (mkBatchResult 0 0 0 0 []), mkSt (world st) (calls st) (logs st ++ lg))).
Proof.
  split.
  - destruct (process_spec self files od ow sp st) as (new & st' & -> & HP).
    eexists _, _. split; [reflexivity|]. simpl.
    assert (length new = length files) as Hl
      by (rewrite <- HP; symmetry; apply length_fmap).
    rewrite count_sum, Hl. done.
  - by eexists [_].
Qed.

(** C9. No operation increments [skipped]: the result [process] returns
    has [skipped = 0], for every list of files and every option. *)
Theorem process_skipped_zero self (files : list Path) od ow sp st :
  exists r st', process self files od ow sp st = (Ok r, st') /\ skipped r = 0.
Proof.
  destruct (process_spec self files od ow sp st) as (new & st' & -> & _).
  by eexists _, _.
Qed.

End orchestrator_claims.

(** ** The command line *)

Section cli_facts.
Context {W : Type} `{!OS W}.

Lemma print_summary_reads result :
  Pure.reads (W:=W) (print_summary result) (fun _ => tt).
Proof.
  unfold print_summary.
  do 9 (apply (reads_bind _ _ (fun _ => tt) (fun _ _ => tt));
        [apply reads_log|intros _]).
  destruct (failed result >? 0); [|apply reads_ret].
  do 2 (apply (reads_bind _ _ (fun _ => tt) (fun _ _ => tt));
        [apply reads_log|intros _]).
  eapply reads_ext.
  - apply (reads_for_each (results result) _ (fun _ _ _ => tt)).
    intros [] r. destruct (success r); simpl; [apply reads_ret|apply reads_log].
  - intros w. by destruct (fold_left _ _ _).
Qed.

(** C6. Once the arguments are parsed and the logger is set up, [main]
    returns an exit code.  With [files] the list the collector returns: if
    it is empty the code is 1; otherwise [process] is run on it, it records
    one result per file, and the code is 0 when all of them succeeded, 1
    when all of them failed, 2 when some succeeded and some failed. *)
Theorem main_exit_code version (args : Args) (st st1 : St W) :
  setup_logger (verbose args) (log_file args) st = (Ok tt, st1) ->
  let processor :=
    Batch.__init__ (mkImageConverter (Spec.clamp_quality (quality args)))
                   (parallel args) in
  exists files stc code st',
    collect_files processor (input args) (negb (no_recursive args)) st1
      = (Ok files, stc) /\
    main version args st = (Ok code, st') /\
    (files = [] -> code = 1) /\
    (files <> [] ->
     exists st2 result st3,
       world st2 = world st1 /\ calls st2 = calls st1 /\
       process processor files (output args) (overwrite args) (negb (quiet args)) st2
         = (Ok result, st3) /\
       length (results result) = length files /\
       (forallb success (results result) = true /\ code = 0
        \/ forallb (fun r => negb (success r)) (results result) = true /\ code = 1
        \/ forallb success (results result) = false
           /\ forallb (fun r => negb (success r)) (results result) = false
           /\ code = 2) /\
       code = Spec.exit_code (results result)).
Proof.
  intros Es processor.
  destruct (collect_files_reads processor (input args) (negb (no_recursive args)) st1)
    as [lgc Ec].
  eexists _, _. rewrite Ec.
  unfold main. unfold bind at 1. rewrite Es.
  unfold bind at 1, log at 1. simpl.
  unfold bind at 1, log at 1. simpl.
  unfold bind at 1.
  match goal with |- context [Converter.__init__ ?q ?s] =>
    destruct (init_spec q s) as [lgi ->] end.
  simpl. fold processor.
  unfold bind at 1.
  match goal with |- context [collect_files processor ?a ?b ?s] =>
    destruct (collect_files_reads processor a b s) as [lgf ->] end.
  simpl.
  set (files := Pure.collect (world st1) (input args) (negb (no_recursive args))).
  case_bool_decide as Hf.
  - run_m. eexists _, _. split; [reflexivity|]. split; [reflexivity|]. done.
  - unfold bind at 1, log at 1. simpl. unfold bind at 1, log at 1. simpl.
    unfold bind at 1.
    match goal with |- context [process processor files ?a ?b ?c ?s] =>
      pose (st2 := s);
      destruct (process_spec processor files a b c s) as (new & st3 & Ep & HP) end.
    rewrite Ep. unfold bind at 1.
    destruct (print_summary_reads
                (mkBatchResult (Z.of_nat (length files)) (Pure.count_success new)
                   (Pure.count_failure new) 0 new) st3) as [lgp ->].
    simpl.
    exists (Spec.exit_code new), (mkSt (world st3) (calls st3) (logs st3 ++ lgp)).
    split; [reflexivity|]. split.
    { rewrite <- (exit_code_of_counts new). by repeat case_match. }
    split; [done|]. intros _.
    exists st2, (mkBatchResult (Z.of_nat (length files)) (Pure.count_success new)
                   (Pure.count_failure new) 0 new), st3.
    split_and!; try done.
    + simpl. fold files. rewrite <- HP. symmetry. apply length_fmap.
    + simpl. unfold Spec.exit_code.
      destruct (forallb success new); [by left|].
      destruct (forallb _ new); [right; by left|]. right; by right.
Qed.

End cli_facts.

(** ** The theorems at work on the toy world *)

Lemma collect_files_unique_sorted_witness :
  exists out,
    Toy.run (collect_files (Batch.__init__ (mkImageConverter 80) 4)
               [of_string "pics"; of_string "README"] true) = Ok out /\
    Sorted path_le out /\
    forall l, l ≡ₚ out -> Sorted path_le l -> l = out.
Proof.
  destruct (collect_files_unique_sorted (Batch.__init__ (mkImageConverter 80) 4)
              [of_string "pics"; of_string "README"] true Toy.start)
    as (scan & out & lg0 & lg & E0 & E & _ & _ & HS & _ & Hdet).
  exists out. unfold Toy.run. rewrite E. split; [reflexivity|]. split; [exact HS|].
  apply Hdet. vm_compute in E0. injection E0 as <- _.
  repeat constructor.
Defined.

Lemma main_exit_code_witness :
  setup_logger false None Toy.start = (Ok tt, Toy.start) /\
  exists code st',
    main "1.0.0" (mkArgs [of_string "pics"] None false 80 4 false false None false)
      Toy.start = (Ok code, st')
    /\ (code = 0 \/ code = 1 \/ code = 2).
Proof.
  assert (H : setup_logger false None Toy.start = (Ok tt, Toy.start)) by reflexivity.
  split; [exact H|].
  destruct (main_exit_code "1.0.0"
              (mkArgs [of_string "pics"] None false 80 4 false false None false)
              Toy.start Toy.start H)
    as (files & stc & code & st' & _ & Em & H0 & H1).
  exists code, st'. split; [exact Em|].
  destruct files as [|f files]; [right; left; by apply H0|].
  destruct (H1 ltac:(done))
    as (st2 & r & st3 & _ & _ & _ & _ & [[_ ->]|[[_ ->]|(_ & _ & ->)]] & _); auto.
Defined.

(** The toy world: a directory scan, and the three exit codes. *)

Example toy_collect :
  Toy.run (collect_files (Batch.__init__ (mkImageConverter 80) 4)
             [of_string "pics"; of_string "README"; of_string "nope"] true)
  = Ok [of_string "pics/a.png"; of_string "pics/b.JPG"].
Proof. vm_compute. reflexivity. Qed.

Example toy_exit_partial :
  Toy.run (main "1.0.0"
             (mkArgs [of_string "pics"] None false 80 4 false false None false))
  = Ok 2.
Proof. vm_compute. reflexivity. Qed.

Example toy_exit_success :
  Toy.run (main "1.0.0"
             (mkArgs [of_string "pics"] None true 80 4 false false None false))
  = Ok 0.
Proof. vm_compute. reflexivity. Qed.

Example toy_exit_all_failed :
  Toy.run (main "1.0.0"
             (mkArgs [of_string "pics"] (Some (of_string "out")) true 80 4
                     false false None false))
  = Ok 1.
Proof. vm_compute. reflexivity. Qed.

Example toy_exit_no_files :
  Toy.run (main "1.0.0"
             (mkArgs [of_string "README"; of_string "nope"] None false 80 4
                     false false None false))
  = Ok 1.
Proof. vm_compute. reflexivity. Qed.

Example toy_output_path :
  to_string (get_output_path (of_string "/x/archive.tar.gz") (Some (of_string "out/d")))
  = "out/d/archive.tar.avif".
Proof. vm_compute. reflexivity. Qed.

(** * More of the code *)

(** ** core/formats.py: outputs, collisions, letter case *)

Section formats_more.

Lemma stem_no_sep_name p : Str.has_char "/" (name p) = false -> Str.has_char "/" (stem p) = false.
Proof. intros H. unfold stem. case_match; [by apply has_char_upto | done]. Qed.

Lemma get_output_path_eq_name p o :
  Str.has_char "/" (name p) = false ->
  get_output_path p o =
    let d := default (parent p) o in
    mkPath (is_abs d) (parts d ++ [stem p +:+ OUTPUT_FORMAT]).
Proof.
  intros Hn. pose proof (stem_no_sep_name p Hn) as Hs.
  assert (Str.has_char "/" (stem p +:+ OUTPUT_FORMAT) = false)
    by (by rewrite has_char_app, Hs).
  assert (stem p +:+ OUTPUT_FORMAT <> "") by (by destruct (stem p)).
  assert (stem p +:+ OUTPUT_FORMAT <> ".").
  { intros E. apply (f_equal String.length) in E. rewrite length_app in E.
    simpl in E. lia. }
  unfold get_output_path. destruct o; simpl; by rewrite joinpath_single.
Qed.

Lemma stem_of_empty_name p : name p = "" -> stem p = "".
Proof. intros E. unfold stem. rewrite E. done. Qed.

Lemma app_inj_r (s1 s2 t : string) : s1 +:+ t = s2 +:+ t -> s1 = s2.
Proof.
  revert s2. induction s1 as [|a s1 IH]; intros [|b s2] E; try done.
  - apply (f_equal String.length) in E. rewrite app_nil_l, app_cons in E.
    simpl in E. rewrite length_app in E. lia.
  - apply (f_equal String.length) in E. rewrite app_nil_l, app_cons in E.
    simpl in E. rewrite length_app in E. lia.
  - rewrite !app_cons in E. injection E as -> E. f_equal. by apply IH.
Qed.

(** X1. The path [get_output_path] derives is never a supported input:
    what the converter writes is not picked up as a source image. *)
Theorem output_path_not_supported (p : Path) (od : option Path) :
  wf_path p -> is_supported_format (get_output_path p od) = false.
Proof.
  intros Hp. rewrite get_output_path_eq by done. simpl.
  destruct (decide (name p = "")) as [E|E].
  - rewrite (stem_of_empty_name p E). unfold is_supported_format, suffix.
    rewrite name_snoc. by vm_compute.
  - unfold is_supported_format.
    rewrite (proj1 (suffix_snoc_ext _ _ (stem p) (stem_nonempty p E))).
    by vm_compute.
Qed.

Lemma output_path_not_supported_witness :
  wf_path (of_string "a/b/photo.png") /\
  is_supported_format (get_output_path (of_string "a/b/photo.png") None) = false.
Proof.
  assert (H : wf_path (of_string "a/b/photo.png"))
    by (apply wf_pathb_true; vm_compute; reflexivity).
  split; [exact H|]. exact (output_path_not_supported _ None H).
Defined.

(** X2. Deriving the output path of an output path gives the same path:
    [get_output_path] is idempotent on paths that have a final
    component. *)
Theorem get_output_path_idempotent (p : Path) (od : option Path) :
  wf_path p -> name p <> "" ->
  get_output_path (get_output_path p od) od = get_output_path p od.
Proof.
  intros Hp Hn. rewrite (get_output_path_eq p od Hp). simpl.
  set (d := default (parent p) od).
  pose proof (output_name_ok p Hp) as (Hs & _ & _). simpl in Hs.
  rewrite get_output_path_eq_name by (by rewrite name_snoc).
  simpl. rewrite (proj2 (suffix_snoc_ext _ _ (stem p) (stem_nonempty p Hn))).
  rewrite parent_snoc. destruct od as [d'|]; simpl; [done|].
  subst d. simpl. done.
Qed.

Lemma get_output_path_idempotent_witness :
  (wf_path (of_string "a/b/photo.png") /\ name (of_string "a/b/photo.png") <> "") /\
  get_output_path (get_output_path (of_string "a/b/photo.png") None) None
  = get_output_path (of_string "a/b/photo.png") None.
Proof.
  assert (H : wf_path (of_string "a/b/photo.png"))
    by (apply wf_pathb_true; vm_compute; reflexivity).
  assert (Hn : name (of_string "a/b/photo.png") <> "") by (vm_compute; discriminate).
  split; [by split|]. exact (get_output_path_idempotent _ None H Hn).
Defined.

(** X3. Two inputs are given the same output path exactly when they have
    the same stem and the same target directory (the output directory when
    one is given, else their own parent): [a.png] and [a.jpg] of one
    directory collide, and so do equal stems from different directories once
    an output directory is given. *)
Theorem get_output_path_collision (p q : Path) (od : option Path) :
  wf_path p -> wf_path q ->
  (get_output_path p od = get_output_path q od <->
   stem p = stem q /\ default (parent p) od = default (parent q) od).
Proof.
  intros Hp Hq. rewrite !get_output_path_eq by done. simpl. split.
  - intros [= Ha [Hl Hn]%app_inj_tail]. split; [by apply app_inj_r in Hn|].
    destruct (default (parent p) od), (default (parent q) od). simpl in *. by subst.
  - intros [-> ->]. done.
Qed.

Lemma get_output_path_collision_witness :
  (wf_path (of_string "d/a.png") /\ wf_path (of_string "d/a.jpg")) /\
  get_output_path (of_string "d/a.png") None = get_output_path (of_string "d/a.jpg") None.
Proof.
  assert (H1 : wf_path (of_string "d/a.png"))
    by (apply wf_pathb_true; vm_compute; reflexivity).
  assert (H2 : wf_path (of_string "d/a.jpg"))
    by (apply wf_pathb_true; vm_compute; reflexivity).
  split; [by split|].
  apply (get_output_path_collision _ _ None H1 H2). split; vm_compute; reflexivity.
Defined.

Lemma lower_ascii_dot a : Str.lower_ascii a = "."%char <-> a = "."%char.
Proof.
  destruct a as [[] [] [] [] [] [] [] []]; vm_compute; split; congruence.
Qed.

Lemma rfind_lower s : Str.rfind "." (Str.lower s) = Str.rfind "." s.
Proof.
  induction s as [|a s IH]; [done|]. unfold Str.lower in *. simpl. rewrite IH.
  destruct (0 <=? Str.rfind "." s); [done|].
  destruct (Ascii.eqb_spec a "."%char) as [->|Hne]; [done|].
  destruct (Ascii.eqb_spec (Str.lower_ascii a) "."%char) as [E|]; [|done].
  destruct Hne. by apply (proj1 (lower_ascii_dot a)).
Qed.

Lemma length_lower s : String.length (Str.lower s) = String.length s.
Proof. induction s as [|a s IH]; [done|]. unfold Str.lower in *. simpl. by rewrite IH. Qed.

Lemma from_lower i s : Str.from i (Str.lower s) = Str.lower (Str.from i s).
Proof.
  revert i. induction s as [|a s IH]; intros [|i]; try done.
  unfold Str.lower in *. simpl. apply IH.
Qed.

Lemma lower_suffix p :
  Str.lower (suffix p) =
    let n := Str.lower (name p) in
    let i := Str.rfind "." n in
    if (0 <? i) && (i <? Z.of_nat (String.length n) - 1)
    then Str.from (Z.to_nat i) n else "".
Proof.
  unfold suffix. simpl. rewrite rfind_lower, length_lower, from_lower.
  by case_match.
Qed.

(** X4. Whether a path is a supported format depends only on its final
    component with the letters lower-cased: [photo.PNG], [photo.Png] and
    [photo.png] are treated alike. *)
Theorem is_supported_format_case (p q : Path) :
  Str.lower (name p) = Str.lower (name q) ->
  is_supported_format p = is_supported_format q.
Proof.
  intros E. unfold is_supported_format. rewrite !lower_suffix. simpl. by rewrite E.
Qed.

Lemma is_supported_format_case_witness :
  Str.lower (name (of_string "x/photo.PNG")) = Str.lower (name (of_string "y/Photo.png")) /\
  is_supported_format (of_string "x/photo.PNG") = is_supported_format (of_string "y/Photo.png").
Proof.
  assert (H : Str.lower (name (of_string "x/photo.PNG"))
              = Str.lower (name (of_string "y/Photo.png")))
    by (vm_compute; reflexivity).
  split; [exact H|]. exact (is_supported_format_case _ _ H).
Defined.

End formats_more.

(** ** core/converter.py: quality warnings, the codec call, the result *)

Section converter_more.
Context {W : Type} `{!OS W}.
Implicit Types (self : ImageConverter) (p : Path) (od : option Path) (st : St W).

(** X5. [_validate_quality] returns the requested quality unchanged and
    logs nothing when it lies in [0, 100]; out of range it returns the
    nearer bound and logs exactly one warning.  It never raises and makes no
    call. *)
Theorem validate_quality_warns (q : Z) st :
  exists lg,
    _validate_quality q st
      = (Ok (Spec.clamp_quality q), mkSt (world st) (calls st) (logs st ++ lg)) /\
    (lg = [] <-> 0 <= q <= 100) /\
    (0 <= q <= 100 -> Spec.clamp_quality q = q) /\
    (q < 0 -> Spec.clamp_quality q = 0) /\
    (100 < q -> Spec.clamp_quality q = 100) /\
    (length lg <= 1)%nat /\
    Forall (fun e => e.1 = WARNING) lg.
Proof.
  unfold _validate_quality, Spec.clamp_quality, MIN_QUALITY, MAX_QUALITY. run_m.
  destruct (Z.ltb_spec q 0); [|destruct (Z.gtb_spec q 100)]; simpl.
  - eexists [_]. split; [do 3 f_equal; lia|].
    split_and!; try lia; [split; [done|lia]|simpl; lia|by repeat constructor].
  - eexists [_]. split; [do 3 f_equal; lia|].
    split_and!; try lia; [split; [done|lia]|simpl; lia|by repeat constructor].
  - exists []. split; [rewrite app_nil_r; destruct st; simpl; do 3 f_equal; lia|].
    split_and!; try lia; [split; [lia|done]|simpl; lia|constructor].
Qed.

Ltac img_cases :=
  repeat match goal with
  | |- context [bool_decide ?P] => destruct (bool_decide P) eqn:?; simpl
  end.

(** The calls of [_convert_image] are the opening of the input, at most
    one mode conversion, and the save to [out]. *)
Lemma convert_image_calls self p od st :
  exists new,
    calls (_convert_image self p (get_output_path p od) st).2 = calls st ++ new /\
    Forall (Frame.convert_may_call self p od) new.
Proof.
  unfold _convert_image, bind, call, ret, log. simpl.
  destruct (pil_open p (world st)) as [[img|e] w1]; simpl;
    [|exists [CallOpen p]; split; [done|by apply Forall_singleton]].
  img_cases;
    repeat match goal with
    | |- context [pil_convert ?m ?i ?w] =>
        destruct (pil_convert m i w) as [[?|?] ?]; simpl
    | |- context [pil_save ?a ?b ?c ?d ?e ?w] =>
        destruct (pil_save a b c d e w) as [[[]|?] ?]; simpl
    end;
    rewrite <- ?app_assoc; simpl;
    (eexists; split; [reflexivity|]);
    repeat (apply Forall_cons_2; [simpl; auto|]); apply Forall_nil_2.
Qed.

(** X6. When [_convert_image] succeeds, the image it saved has mode RGBA
    if the source carries transparency (mode RGBA or LA, or a palette with a
    transparency entry) and mode RGB otherwise, an RGB or RGBA source is
    saved as opened, and the save was made to the output path in format AVIF
    at the converter's quality, with the source's ICC profile when it has a
    non-empty one.  The codec is assumed to return the mode it is asked
    for. *)
Theorem convert_image_preserves_alpha self p (out : Path) st st' :
  Frame.convert_gives_mode ->
  _convert_image self p out st = (Ok tt, st') ->
  exists img w1 out_img w2,
    pil_open p (world st) = (Ok img, w1) /\
    mode out_img = (if Frame.has_alpha img then "RGBA" else "RGB") /\
    (mode img = "RGBA" \/ mode img = "RGB" -> out_img = img /\ w2 = w1) /\
    pil_save out_img out "AVIF" (Converter.quality self) (Frame.saved_icc img) w2
      = (Ok tt, world st').
Proof.
  intros Hmode. unfold _convert_image, bind, call, ret, log. simpl.
  destruct (pil_open p (world st)) as [[img|e] w1]; simpl; [|done].
  fold (Frame.saved_icc img). unfold Frame.has_alpha.
  destruct (bool_decide (mode img = "RGBA")) eqn:E1; simpl.
  { destruct (pil_save _ _ _ _ _ _) as [[[]|?] w3] eqn:Es; simpl; [|done].
    intros [= <-]. exists img, w1, img, w1. rewrite E1. simpl.
    apply bool_decide_eq_true in E1. by split_and!. }
  destruct (bool_decide (mode img = "P") && _) eqn:E2; simpl.
  { destruct (pil_convert "RGBA" img w1) as [[img'|?] w2] eqn:Ec; simpl; [|done].
    destruct (pil_save _ _ _ _ _ _) as [[[]|?] w3] eqn:Es; simpl; [|done].
    intros [= <-]. exists img, w1, img', w2. rewrite E1, E2. simpl.
    apply andb_true_iff in E2 as [E2%bool_decide_eq_true _].
    split_and!; [done|by eapply Hmode| |done].
    intros [?|?]; congruence. }
  destruct (bool_decide (mode img = "L")) eqn:E3; simpl.
  { pose proof E3 as E3'. apply bool_decide_eq_true in E3'.
    assert (bool_decide (mode img = "LA") = false) as E4
      by (apply bool_decide_eq_false; congruence).
    rewrite E4. simpl.
    destruct (pil_convert "RGB" img w1) as [[img'|?] w2] eqn:Ec; simpl; [|done].
    destruct (pil_save _ _ _ _ _ _) as [[[]|?] w3] eqn:Es; simpl; [|done].
    intros [= <-]. exists img, w1, img', w2. rewrite E1, E2, E4. simpl.
    split_and!; [done|by eapply Hmode| |done].
    intros [?|?]; congruence. }
  destruct (bool_decide (mode img = "LA")) eqn:E4; simpl.
  { destruct (pil_convert "RGBA" img w1) as [[img'|?] w2] eqn:Ec; simpl; [|done].
    destruct (pil_save _ _ _ _ _ _) as [[[]|?] w3] eqn:Es; simpl; [|done].
    intros [= <-]. exists img, w1, img', w2. rewrite E1, E2, E4. simpl.
    apply bool_decide_eq_true in E4.
    split_and!; [done|by eapply Hmode| |done].
    intros [?|?]; congruence. }
  destruct (bool_decide (mode img = "RGB")) eqn:E5; simpl.
  { destruct (pil_save _ _ _ _ _ _) as [[[]|?] w3] eqn:Es; simpl; [|done].
    intros [= <-]. exists img, w1, img, w1. rewrite E1, E2, E4. simpl.
    apply bool_decide_eq_true in E5. by split_and!. }
  apply bool_decide_eq_false in E1. apply bool_decide_eq_false in E5.
  destruct (pil_convert "RGB" img w1) as [[img'|?] w2] eqn:Ec; simpl; [|done].
  destruct (pil_save _ _ _ _ _ _) as [[[]|?] w3] eqn:Es; simpl; [|done].
  intros [= <-]. exists img, w1, img', w2.
  rewrite (bool_decide_eq_false_2 _ E1), E2, E4. simpl.
  split_and!; [done|by eapply Hmode| |done].
  intros [?|?]; congruence.
Qed.

(** The calls of a successful [_convert_image] end with the save. *)
Lemma convert_image_ok_calls self p (out : Path) st st' :
  _convert_image self p out st = (Ok tt, st') ->
  exists pre icc,
    calls st' = calls st ++ pre ++ [CallSave out "AVIF" (Converter.quality self) icc].
Proof.
  unfold _convert_image, bind, call, ret, log. simpl.
  destruct (pil_open p (world st)) as [[img|e] w1]; simpl; [|done].
  img_cases;
    repeat match goal with
    | |- context [pil_convert ?m ?i ?w] =>
        destruct (pil_convert m i w) as [[?|?] ?]; simpl
    | |- context [pil_save ?a ?b ?c ?d ?e ?w] =>
        destruct (pil_save a b c d e w) as [[[]|?] ?]; simpl
    end; try done;
    intros [= <-]; simpl; rewrite <- ?app_assoc; simpl;
    first [by eexists [_], _ | by eexists [_; _], _].
Qed.

(** The ways through [convert]. *)
Lemma convert_cases self p od ow st :
  let out := get_output_path p od in
  (os_exists p (world st) = false /\
   convert self p od ow st =
     (Ok (mkConversionResult p None false (Some ("File not found: " +:+ to_string p))),
      st)) \/
  (os_exists p (world st) = true /\ is_supported_format p = false /\
   convert self p od ow st =
     (Ok (mkConversionResult p None false (Some ("Unsupported format: " +:+ suffix p))),
      st)) \/
  (os_exists p (world st) = true /\ is_supported_format p = true /\
   os_exists out (world st) = true /\ ow = false /\
   convert self p od ow st =
     (Ok (mkConversionResult p (Some out) false
            (Some ("Output exists (use --overwrite): " +:+ to_string out))), st)) \/
  (os_exists p (world st) = true /\ is_supported_format p = true /\
   os_exists out (world st) && negb ow = false /\
   exists r1 st1,
     Frame.ensure_dir od st = (r1, st1) /\
     match r1 with
     | Raise e => convert self p od ow st = (Raise e, st1)
     | Ok _ =>
         match _convert_image self p out st1 with
         | (Ok _, st2) =>
             convert self p od ow st = (Ok (mkConversionResult p (Some out) true None), st2)
         | (Raise e, st2) =>
             convert self p od ow st =
               (Ok (mkConversionResult p (Some out) false (Some e)),
                mkSt (world st2) (calls st2)
                  (logs st2 ++ [(ERROR, "Failed to convert " +:+ to_string p)]))
         end
     end).
Proof.
  intros out. unfold convert. run_m.
  destruct (os_exists p (world st)); simpl; [|by left].
  destruct (is_supported_format p); simpl; [|right; by left].
  fold out.
  destruct (os_exists out (world st)) eqn:Eo; simpl.
  - destruct ow; simpl; [|right; right; by left].
    do 3 right. split_and!; try done.
    unfold Frame.ensure_dir. destruct od as [d|]; run_m.
    + destruct (os_mkdir d (world st)) as [[[]|e] w1]; eexists _, _;
        (split; [reflexivity|]); simpl; [|done].
      by destruct (_convert_image _ _ _ _) as [[[]|e] st2].
    + eexists _, _. split; [reflexivity|]. simpl.
      by destruct (_convert_image _ _ _ _) as [[[]|e] st2].
  - do 3 right. split_and!; try done.
    unfold Frame.ensure_dir. destruct od as [d|]; run_m.
    + destruct (os_mkdir d (world st)) as [[[]|e] w1]; eexists _, _;
        (split; [reflexivity|]); simpl; [|done].
      by destruct (_convert_image _ _ _ _) as [[[]|e] st2].
    + eexists _, _. split; [reflexivity|]. simpl.
      by destruct (_convert_image _ _ _ _) as [[[]|e] st2].
Qed.

Lemma ensure_dir_calls od st :
  calls (Frame.ensure_dir od st).2
  = calls st ++ match od with Some d => [CallMkdir d] | None => [] end.
Proof.
  unfold Frame.ensure_dir. destruct od as [d|]; run_m.
  - by destruct (os_mkdir d (world st)) as [r w1].
  - by rewrite app_nil_r.
Qed.

(** X7. The shape of what [convert] returns: the result names the input;
    a success has no error message, carries the derived output path, and
    happens only for an existing, supported input; a failure always has an
    error message; and a result without output path is a failure of a
    [convert] that changed nothing (missing or unsupported input). *)
Theorem convert_result_shape self p od ow st (r : ConversionResult) st' :
  convert self p od ow st = (Ok r, st') ->
  input_path r = p /\
  (success r = true ->
   error_message r = None /\ output_path r = Some (get_output_path p od) /\
   os_exists p (world st) = true /\ is_supported_format p = true /\
   (os_exists (get_output_path p od) (world st) = false \/ ow = true)) /\
  (success r = false -> is_Some (error_message r)) /\
  (output_path r = None -> success r = false /\ st' = st).
Proof.
  intros E.
  destruct (convert_cases self p od ow st)
    as [(H1&Ec)|[(H1&H2&Ec)|[(H1&H2&H3&H4&Ec)|(H1&H2&H3&r1&st1&Ed&Ec)]]];
    try (rewrite Ec in E; injection E as <- <-; simpl; split_and!; eauto; done).
  destruct r1 as [[]|e]; [|by rewrite Ec in E].
  destruct (_convert_image _ _ _ _) as [[[]|e] st2];
    rewrite Ec in E; injection E as <- <-; simpl; split_and!; eauto; try done.
  intros _. split_and!; try done.
  apply andb_false_iff in H3 as [?|?%negb_false_iff]; auto.
Qed.

(** X8. A successful [convert] has saved: the last call it made is the
    save to the derived output path, in format AVIF, at the converter's
    quality. *)
Theorem convert_success_saved self p od ow st (r : ConversionResult) st' :
  convert self p od ow st = (Ok r, st') ->
  success r = true ->
  exists pre icc,
    calls st' = calls st ++ pre
                ++ [CallSave (get_output_path p od) "AVIF" (Converter.quality self) icc].
Proof.
  intros E Hs.
  destruct (convert_cases self p od ow st)
    as [(H1&Ec)|[(H1&H2&Ec)|[(H1&H2&H3&H4&Ec)|(H1&H2&H3&r1&st1&Ed&Ec)]]];
    try (rewrite Ec in E; injection E as <- <-; done).
  destruct r1 as [[]|e]; [|by rewrite Ec in E].
  destruct (_convert_image _ _ _ _) as [[[]|e] st2] eqn:Ei;
    rewrite Ec in E; injection E as <- <-; [|done].
  destruct (convert_image_ok_calls _ _ _ _ _ Ei) as (pre & icc & ->).
  pose proof (ensure_dir_calls od st) as Hd. rewrite Ed in Hd. simpl in Hd.
  exists (match od with Some d => [CallMkdir d] | None => [] end ++ pre), icc.
  by rewrite Hd, <- !app_assoc.
Qed.

Lemma convert_calls_allowed self p od ow st :
  exists new,
    calls (convert self p od ow st).2 = calls st ++ new /\
    Forall (Frame.convert_may_call self p od) new.
Proof.
  destruct (convert_cases self p od ow st)
    as [(H1&Ec)|[(H1&H2&Ec)|[(H1&H2&H3&H4&Ec)|(H1&H2&H3&r1&st1&Ed&Ec)]]];
    try (rewrite Ec; exists []; simpl; by rewrite app_nil_r).
  pose proof (ensure_dir_calls od st) as Hd. rewrite Ed in Hd. simpl in Hd.
  assert (Hmk : Forall (Frame.convert_may_call self p od)
                  match od with Some d => [CallMkdir d] | None => [] end).
  { destruct od; [by apply Forall_singleton|constructor]. }
  destruct r1 as [[]|e]; [|rewrite Ec; simpl; eauto].
  destruct (convert_image_calls self p od st1) as (new & Hn & Hf).
  destruct (_convert_image _ _ _ _) as [[[]|e] st2]; rewrite Ec; simpl in *;
    rewrite Hn, Hd, <- app_assoc; eexists; (split; [reflexivity|]);
    by apply Forall_app.
Qed.

(** X9. Whatever its outcome, [convert] makes no call but these: the
    creation of the given output directory (none when no directory is
    given), the opening of the input, a mode conversion to RGB or RGBA, and
    the save to the derived output path in format AVIF at the converter's
    quality. *)
Theorem convert_frame self p od ow st :
  exists new,
    calls (convert self p od ow st).2 = calls st ++ new /\
    Forall (Frame.convert_may_call self p od) new /\
    (od = None -> forall d, CallMkdir d ∉ new) /\
    (forall f, CallOpenLog f ∉ new).
Proof.
  destruct (convert_calls_allowed self p od ow st) as (new & Hn & Hf).
  exists new. split_and!; try done.
  - intros -> d Hd. rewrite Forall_forall in Hf. by apply Hf in Hd.
  - intros f Hd. rewrite Forall_forall in Hf. by apply Hf in Hd.
Qed.

End converter_more.

Lemma convert_image_preserves_alpha_witness :
  let st' := (_convert_image (mkImageConverter 80) (of_string "pics/a.png")
                (of_string "pics/x.avif") Toy.start).2 in
  exists out_img w2,
    mode out_img = "RGB" /\
    pil_save out_img (of_string "pics/x.avif") "AVIF" 80 None w2 = (Ok tt, world st').
Proof.
  intros st'.
  assert (Hm : Frame.convert_gives_mode (W:=Toy.World)).
  { intros m img w img' w' [= <- _]. reflexivity. }
  assert (Hr : _convert_image (mkImageConverter 80) (of_string "pics/a.png")
                 (of_string "pics/x.avif") Toy.start = (Ok tt, st'))
    by (vm_compute; reflexivity).
  destruct (convert_image_preserves_alpha _ _ _ _ _ Hm Hr)
    as (img & w1 & out_img & w2 & Ho & Hmode & _ & Hs).
  exists out_img, w2. split; [|exact Hs].
  vm_compute in Ho. injection Ho as <- _. exact Hmode.
Defined.

Lemma convert_result_shape_witness :
  let res := convert (mkImageConverter 80) (of_string "pics/b.JPG") None false Toy.start in
  res = (Ok (mkConversionResult (of_string "pics/b.JPG")
               (Some (of_string "pics/b.avif")) true None), res.2) /\
  input_path (mkConversionResult (of_string "pics/b.JPG")
                (Some (of_string "pics/b.avif")) true None) = of_string "pics/b.JPG".
Proof.
  intros res.
  assert (H : res = (Ok (mkConversionResult (of_string "pics/b.JPG")
                           (Some (of_string "pics/b.avif")) true None), res.2))
    by (vm_compute; reflexivity).
  split; [exact H|].
  exact (proj1 (convert_result_shape _ _ _ _ _ _ _ H)).
Defined.

Lemma convert_success_saved_witness :
  let res := convert (mkImageConverter 80) (of_string "pics/b.JPG") None false Toy.start in
  res = (Ok (mkConversionResult (of_string "pics/b.JPG")
               (Some (of_string "pics/b.avif")) true None), res.2) /\
  exists pre icc,
    calls res.2 = calls Toy.start ++ pre
                  ++ [CallSave (get_output_path (of_string "pics/b.JPG") None) "AVIF" 80 icc].
Proof.
  intros res.
  assert (H : res = (Ok (mkConversionResult (of_string "pics/b.JPG")
                           (Some (of_string "pics/b.avif")) true None), res.2))
    by (vm_compute; reflexivity).
  split; [exact H|].
  exact (convert_success_saved _ _ _ _ _ _ _ H eq_refl).
Defined.

(** ** utils/batch.py: what [process] reports and what it touches *)

Section process_more.
Context {W : Type} `{!OS W}.
Implicit Types (self : BatchProcessor) (od : option Path) (st : St W).

(** X10. Every file of the batch is reported exactly once: the input
    paths of the results are a rearrangement of the given files, and the
    two counters are the numbers of successful and of failed results in the
    list. *)
Theorem process_reports_each_file self (files : list Path) od ow sp st :
  exists r st',
    process self files od ow sp st = (Ok r, st') /\
    input_path <$> results r ≡ₚ files /\
    successful r = Z.of_nat (length (List.filter success (results r))) /\
    failed r = Z.of_nat (length (List.filter (fun x => negb (success x)) (results r))).
Proof.
  destruct (process_spec self files od ow sp st) as (new & st' & -> & HP).
  by eexists _, _.
Qed.

(** The calls of the loop are calls [convert] may make for a pending
    file. *)
Lemma as_completed_loop_calls self od ow sp n pending :
  forall i result st,
  exists new,
    calls (as_completed_loop self od ow sp n (length pending) pending i result st).2
      = calls st ++ new /\
    Forall (fun c => exists f, f ∈ pending
                               /\ Frame.convert_may_call (converter self) f od c) new.
Proof.
  remember (length pending) as m eqn:Hm. revert pending Hm.
  induction m as [|m IH]; intros pending Hm i result st.
  - exists []. simpl. by rewrite app_nil_r.
  - simpl. unfold bind at 1, ask at 1. simpl. rewrite <- Hm.
    set (k := (os_next_done pending (world st) mod S m)%nat).
    assert (Hk : (k < length pending)%nat).
    { rewrite <- Hm. apply Nat.mod_upper_bound. lia. }
    destruct (lookup_lt_is_Some_2 pending k Hk) as [file_path Hf]. rewrite Hf.
    unfold bind at 1, capture at 1.
    destruct (convert_calls_allowed (converter self) file_path od ow st)
      as (new1 & Hn1 & Hf1).
    destruct (convert (converter self) file_path od ow st) as [outcome st1].
    simpl in Hn1. unfold bind at 1.
    destruct (record_completion_spec n sp i file_path outcome result st1)
      as [lg Er]. simpl in Er. rewrite Er.
    match goal with |- context [as_completed_loop _ _ _ _ _ _ _ ?i' ?r' ?s'] =>
      destruct (IH (delete k pending)
                  ltac:(rewrite length_delete by eauto; lia) i' r' s')
        as (new2 & -> & Hf2) end.
    simpl. rewrite Hn1, <- app_assoc. eexists. split; [reflexivity|].
    apply Forall_app. split.
    + eapply Forall_impl; [exact Hf1|]. intros c Hc. exists file_path.
      split; [by eapply list_elem_of_lookup_2|done].
    + eapply Forall_impl; [exact Hf2|]. intros c (f & Hin & Hc). exists f.
      split; [|done]. rewrite (delete_Permutation pending k file_path Hf).
      by right.
Qed.

Lemma process_calls self (files : list Path) od ow sp st :
  exists new,
    calls (process self files od ow sp st).2 = calls st ++ new /\
    Forall (fun c => exists f, f ∈ files
                               /\ Frame.convert_may_call (converter self) f od c) new.
Proof.
  unfold process. case_bool_decide as Hf.
  - exists []. simpl. by rewrite app_nil_r.
  - unfold bind at 1, log at 1. simpl.
    match goal with |- context [as_completed_loop _ _ _ _ _ _ _ ?i' ?r' ?s'] =>
      destruct (as_completed_loop_calls self od ow sp (length files) files i' r' s')
        as (new & -> & Hn) end.
    by exists new.
Qed.

(** X11. What [process] does to the outside world: every save goes to the
    derived output path of one of the files, in format AVIF at the
    converter's quality, and that path is never a supported input format, so
    no source image is written over; every directory created is the given
    output directory, and none is created when no directory is given; the
    only files opened are files of the batch. *)
Theorem process_frame self (files : list Path) od ow sp st :
  Forall wf_path files ->
  exists new,
    calls (process self files od ow sp st).2 = calls st ++ new /\
    (forall out fmt q icc, CallSave out fmt q icc ∈ new ->
       fmt = "AVIF" /\ q = Converter.quality (converter self) /\
       is_supported_format out = false /\
       exists f, f ∈ files /\ out = get_output_path f od) /\
    (forall d, CallMkdir d ∈ new -> od = Some d) /\
    (forall f, CallOpen f ∈ new -> f ∈ files) /\
    (forall f, CallOpenLog f ∉ new).
Proof.
  intros Hwf. destruct (process_calls self files od ow sp st) as (new & Hn & Hf).
  exists new. split; [done|]. rewrite Forall_forall in Hf. rewrite Forall_forall in Hwf.
  split_and!.
  - intros out fmt q icc (f & Hin & -> & -> & ->)%Hf. split_and!; try done.
    + apply output_path_not_supported. by apply Hwf.
    + by exists f.
  - by intros d (f & Hin & ?)%Hf.
  - by intros g (f & Hin & ->)%Hf.
  - by intros g (f & Hin & ?)%Hf.
Qed.

(** The loop on files that [convert] turns away at its first two guards:
    nothing but the log changes, every result is a failure without output
    path. *)
Lemma as_completed_loop_idle self od ow sp n pending :
  forall i result st,
  Forall (fun f => os_exists f (world st) = false \/ is_supported_format f = false)
         pending ->
  exists new lg,
    as_completed_loop self od ow sp n (length pending) pending i result st =
      (Ok (mkBatchResult (total result) (successful result)
             (failed result + Z.of_nat (length pending))
             (skipped result) (results result ++ new)),
       mkSt (world st) (calls st) (logs st ++ lg)) /\
    length new = length pending /\
    Forall (fun r => success r = false /\ output_path r = None) new.
Proof.
  remember (length pending) as m eqn:Hm. revert pending Hm.
  induction m as [|m IH]; intros pending Hm i result st Hidle.
  - exists [], []. simpl. unfold ret. rewrite !app_nil_r, Z.add_0_r.
    destruct result, st. by split_and!.
  - simpl. unfold bind at 1, ask at 1. simpl. rewrite <- Hm.
    set (k := (os_next_done pending (world st) mod S m)%nat).
    assert (Hk : (k < length pending)%nat).
    { rewrite <- Hm. apply Nat.mod_upper_bound. lia. }
    destruct (lookup_lt_is_Some_2 pending k Hk) as [f Hf]. rewrite Hf.
    unfold bind at 1, capture at 1.
    assert (exists msg, convert (converter self) f od ow st
              = (Ok (mkConversionResult f None false (Some msg)), st)) as [msg ->].
    { rewrite Forall_forall in Hidle.
      destruct (Hidle f ltac:(by eapply list_elem_of_lookup_2)) as [E|E].
      - eexists. by apply convert_not_found.
      - destruct (os_exists f (world st)) eqn:Ex.
        + eexists. by apply convert_unsupported.
        + eexists. by apply convert_not_found. }
    unfold bind at 1.
    destruct (record_completion_spec n sp i f
                (Ok (mkConversionResult f None false (Some msg))) result st)
      as [lg Er]. rewrite Er. simpl.
    match goal with |- context [as_completed_loop _ _ _ _ _ _ _ ?i' ?r' ?s'] =>
      destruct (IH (delete k pending)
                  ltac:(rewrite length_delete by eauto; lia) i' r' s')
        as (new & lg' & -> & Hl & Hnew) end.
    { simpl. by apply Forall_delete. }
    simpl. exists (mkConversionResult f None false (Some msg) :: new), (lg ++ lg').
    rewrite <- !app_assoc. simpl. split_and!.
    + rewrite Z.add_0_r. do 2 f_equal. f_equal. lia.
    + by rewrite Hl.
    + by constructor.
Qed.

(** X12. A batch in which no file passes the first two guards of
    [convert] (each is missing or has an unsupported extension): [process]
    reports every file as failed, none as successful, no result has an
    output path, and nothing but the log changes: no directory is created,
    the codec is not entered. *)
Theorem process_idle self (files : list Path) od ow sp st :
  Forall (fun f => os_exists f (world st) = false \/ is_supported_format f = false)
         files ->
  exists r lg,
    process self files od ow sp st
      = (Ok r, mkSt (world st) (calls st) (logs st ++ lg)) /\
    successful r = 0 /\ failed r = Z.of_nat (length files) /\
    Forall (fun x => success x = false /\ output_path x = None) (results r).
Proof.
  intros Hidle. unfold process. case_bool_decide as Hf.
  - subst files. eexists _, [_]. split; [reflexivity|]. simpl. by split_and!.
  - unfold bind at 1, log at 1. simpl.
    match goal with |- context [as_completed_loop _ _ _ _ _ _ _ ?i' ?r' ?s'] =>
      destruct (as_completed_loop_idle self od ow sp (length files) files i' r' s'
                  Hidle) as (new & lg & -> & Hl & Hnew) end.
    simpl. eexists _, (_ :: lg). split; [by rewrite <- app_assoc|].
    simpl. by split_and!.
Qed.

End process_more.

Lemma process_frame_witness :
  Forall wf_path [of_string "pics/a.png"; of_string "pics/b.JPG"] /\
  exists new,
    calls (process (Batch.__init__ (mkImageConverter 80) 4)
             [of_string "pics/a.png"; of_string "pics/b.JPG"] None true true
             Toy.start).2 = calls Toy.start ++ new /\
    forall d, CallMkdir d ∈ new -> None = Some d.
Proof.
  assert (H : Forall wf_path [of_string "pics/a.png"; of_string "pics/b.JPG"])
    by (repeat (apply Forall_cons_2; [apply wf_pathb_true; vm_compute; reflexivity|]);
        apply Forall_nil_2).
  split; [exact H|].
  destruct (process_frame (Batch.__init__ (mkImageConverter 80) 4) _ None true true
              Toy.start H) as (new & Hn & _ & Hd & _).
  exists new. split; [exact Hn|exact Hd].
Defined.

Lemma process_idle_witness :
  Forall (fun f => os_exists f (world Toy.start) = false
                   \/ is_supported_format f = false)
         [of_string "nope.png"; of_string "README"] /\
  exists r lg,
    process (Batch.__init__ (mkImageConverter 80) 4)
      [of_string "nope.png"; of_string "README"] None false true Toy.start
      = (Ok r, mkSt (world Toy.start) (calls Toy.start) (logs Toy.start ++ lg)) /\
    successful r = 0 /\ failed r = 2.
Proof.
  assert (H : Forall (fun f => os_exists f (world Toy.start) = false
                               \/ is_supported_format f = false)
                [of_string "nope.png"; of_string "README"]).
  { apply Forall_cons_2; [left; vm_compute; reflexivity|].
    apply Forall_cons_2; [right; vm_compute; reflexivity|]. apply Forall_nil_2. }
  split; [exact H|].
  destruct (process_idle (Batch.__init__ (mkImageConverter 80) 4) _ None false true
              Toy.start H) as (r & lg & E & Hs & Hf & _).
  exists r, lg. split; [exact E|]. split; [exact Hs|exact Hf].
Defined.


(** ** utils/batch.py: what [collect_files] keeps, drops and logs *)

Section collect_more.
Context {W : Type} `{!OS W}.
Implicit Types (self : BatchProcessor) (st : St W) (w : W).

Lemma fold_left_append {A B} (f : list B -> A -> list B) (g : A -> list B) (l : list A) :
  (forall acc x, f acc x = acc ++ g x) ->
  forall acc, fold_left f l acc = acc ++ (l ≫= g).
Proof.
  intros Hf. induction l as [|x l IH]; intros acc; simpl.
  - by rewrite app_nil_r.
  - by rewrite IH, Hf, <- app_assoc.
Qed.

Lemma scan_path_append recursive w files path :
  Pure.scan_path recursive w files path = files ++ Pure.scan_path recursive w [] path.
Proof.
  unfold Pure.scan_path. destruct (os_is_file path w).
  { by case_bool_decide; rewrite ?app_nil_r. }
  destruct (os_is_dir path w); [|by rewrite app_nil_r].
  set (pattern := if recursive then "**/*" else "*").
  rewrite !(fold_left_append _
              (fun ext => os_glob path (pattern +:+ ext) w
                          ++ os_glob path (pattern +:+ Str.upper ext) w)) by done.
  done.
Qed.

Lemma scan_bind w paths recursive :
  Pure.scan w paths recursive = paths ≫= Pure.scan_path recursive w [].
Proof.
  unfold Pure.scan.
  by rewrite (fold_left_append _ (Pure.scan_path recursive w []))
    by apply scan_path_append.
Qed.

Lemma scan_app w paths1 paths2 recursive :
  Pure.scan w (paths1 ++ paths2) recursive
  = Pure.scan w paths1 recursive ++ Pure.scan w paths2 recursive.
Proof. by rewrite !scan_bind, bind_app. Qed.

(** Where an entry of the scan comes from. *)
Lemma elem_of_scan_path recursive w path f :
  f ∈ Pure.scan_path recursive w [] path <->
  (os_is_file path w = true /\ is_supported_format path = true /\ f = path) \/
  (os_is_file path w = false /\ os_is_dir path w = true
   /\ Frame.globbed w recursive path f).
Proof.
  unfold Pure.scan_path, is_supported_format, Frame.globbed.
  destruct (os_is_file path w).
  { case_bool_decide; simpl.
    - rewrite list_elem_of_singleton. naive_solver.
    - rewrite elem_of_nil. naive_solver. }
  destruct (os_is_dir path w); [|rewrite elem_of_nil; naive_solver].
  set (pattern := if recursive then "**/*" else "*").
  rewrite (fold_left_append _
             (fun ext => os_glob path (pattern +:+ ext) w
                         ++ os_glob path (pattern +:+ Str.upper ext) w)) by done.
  simpl. rewrite list_elem_of_bind. split.
  - intros (ext & Hf%elem_of_app & He%elem_of_elements). right. eauto 10.
  - intros [(?&_)|(_&_&ext&He&Hf)]; [done|]. exists ext.
    rewrite elem_of_app, elem_of_elements. done.
Qed.

Lemma elem_of_scan w paths recursive f :
  f ∈ Pure.scan w paths recursive <->
  exists path, path ∈ paths /\ f ∈ Pure.scan_path recursive w [] path.
Proof. rewrite scan_bind, list_elem_of_bind. naive_solver. Qed.

Lemma firsts_app canon seen l1 l2 :
  Pure.firsts canon seen (l1 ++ l2)
  = Pure.firsts canon seen l1
    ++ Pure.firsts canon (seen ∪ Spec.canonical_set canon l1) l2.
Proof.
  unfold Spec.canonical_set.
  revert seen. induction l1 as [|f l1 IH]; intros seen; simpl.
  - by rewrite (right_id_L ∅ (∪)).
  - case_bool_decide as Hf; rewrite IH; simpl.
    + by rewrite (assoc_L (∪)).
    + do 2 f_equal. set_solver.
Qed.

Lemma firsts_all_seen canon seen l :
  (forall x, x ∈ l -> canon x ∈ seen) -> Pure.firsts canon seen l = [].
Proof.
  induction l as [|f l IH]; intros Hl; simpl; [done|].
  rewrite bool_decide_eq_false_2 by (intros Hn; apply Hn, Hl; by left).
  apply IH. intros x Hx. apply Hl. by right.
Qed.

Lemma firsts_subseteq canon seen l x : x ∈ Pure.firsts canon seen l -> x ∈ l.
Proof.
  intros (_ & i & Hi & _)%firsts_first_occurrence. by eapply list_elem_of_lookup_2.
Qed.

Lemma elem_of_collect w paths recursive f :
  f ∈ Pure.collect w paths recursive -> f ∈ Pure.scan w paths recursive.
Proof.
  unfold Pure.collect. rewrite sorted_Permutation. apply firsts_subseteq.
Qed.

(** X13. Naming a path again changes nothing: when every path of
    [paths2] is already among [paths1], collecting [paths1 ++ paths2]
    returns the list collected from [paths1]. *)
Theorem collect_files_ignores_repeats self (paths1 paths2 : list Path)
    (recursive : bool) st :
  (forall p, p ∈ paths2 -> p ∈ paths1) ->
  (collect_files self (paths1 ++ paths2) recursive st).1
  = (collect_files self paths1 recursive st).1.
Proof.
  intros Hsub.
  destruct (collect_files_reads self (paths1 ++ paths2) recursive st) as [lg1 ->].
  destruct (collect_files_reads self paths1 recursive st) as [lg2 ->].
  simpl. f_equal. unfold Pure.collect. rewrite scan_app, firsts_app.
  rewrite (firsts_all_seen _ _ (Pure.scan (world st) paths2 recursive)).
  { by rewrite app_nil_r. }
  intros x (path & Hin & Hx)%elem_of_scan.
  unfold Spec.canonical_set. rewrite elem_of_union, elem_of_list_to_set. right.
  apply (list_elem_of_fmap_2 (fun f => os_resolve f (world st))).
  apply elem_of_scan. exists path. split; [by apply Hsub|done].
Qed.

(** X14. What [collect_files] returns and what it leaves out.  Every
    returned path is either a given regular file with a supported extension
    or a path the scan of a given directory (not a regular file) enumerated
    for one of the supported extensions, in lower or upper case.  Every
    given regular file with a supported extension is represented in the
    result by a path with its canonical form.  Nothing given, nothing
    returned. *)
Theorem collect_files_sound_complete self (paths : list Path) (recursive : bool) st :
  exists out lg,
    collect_files self paths recursive st
      = (Ok out, mkSt (world st) (calls st) (logs st ++ lg)) /\
    (forall f, f ∈ out ->
       (f ∈ paths /\ os_is_file f (world st) = true /\ is_supported_format f = true) \/
       (exists d, d ∈ paths /\ os_is_file d (world st) = false
                  /\ os_is_dir d (world st) = true
                  /\ Frame.globbed (world st) recursive d f)) /\
    (forall p, p ∈ paths -> os_is_file p (world st) = true ->
               is_supported_format p = true ->
               exists f, f ∈ out /\ os_resolve f (world st) = os_resolve p (world st)) /\
    (paths = [] -> out = []).
Proof.
  destruct (collect_files_reads self paths recursive st) as [lg E].
  eexists _, lg. split; [exact E|]. split_and!.
  - intros f (path & Hin & Hf)%elem_of_collect%elem_of_scan.
    apply elem_of_scan_path in Hf as [(?&?&->)|(?&?&?)]; [by left|right; eauto 10].
  - intros p Hin Hfile Hsup.
    assert (Hp : p ∈ Pure.scan (world st) paths recursive).
    { apply elem_of_scan. exists p. split; [done|].
      apply elem_of_scan_path. by left. }
    set (canon := fun f => os_resolve f (world st)).
    assert (Hc : canon p ∈ Spec.canonical_set canon
                   (Pure.firsts canon ∅ (Pure.scan (world st) paths recursive))).
    { rewrite firsts_canonical_set. unfold Spec.canonical_set.
      rewrite elem_of_difference, elem_of_list_to_set. split; [|set_solver].
      by apply (list_elem_of_fmap_2 canon). }
    unfold Spec.canonical_set in Hc.
    apply elem_of_list_to_set, list_elem_of_fmap in Hc as (f & Hfp & Hf).
    exists f. split; [|done]. unfold Pure.collect. by rewrite sorted_Permutation.
  - intros ->. done.
Qed.







End collect_more.

Lemma collect_files_ignores_repeats_witness :
  (forall p, p ∈ [of_string "pics/a.png"] -> p ∈ [of_string "pics"; of_string "pics/a.png"]) /\
  (collect_files (Batch.__init__ (mkImageConverter 80) 4)
     ([of_string "pics"; of_string "pics/a.png"] ++ [of_string "pics/a.png"]) true
     Toy.start).1
  = (collect_files (Batch.__init__ (mkImageConverter 80) 4)
       [of_string "pics"; of_string "pics/a.png"] true Toy.start).1.
Proof.
  assert (H : forall p, p ∈ [of_string "pics/a.png"]
                        -> p ∈ [of_string "pics"; of_string "pics/a.png"]).
  { intros p Hp. apply list_elem_of_singleton in Hp as ->.
    apply elem_of_cons. right. apply elem_of_cons. by left. }
  split; [exact H|].
  exact (collect_files_ignores_repeats _ _ _ true Toy.start H).
Defined.

(** ** cli/app.py: the summary and the calls of a whole run *)

Section cli_more.
Context {W : Type} `{!OS W}.

Lemma failure_lines_run (rs : list ConversionResult) :
  forall (st : St W),
    for_each rs
      (fun _ conv_result =>
         if negb (success conv_result) then
           log WARNING ("  - " +:+ filename conv_result +:+ ": "
                        +:+ default "None" (error_message conv_result))
         else ret tt) tt st
    = (Ok tt, mkSt (world st) (calls st)
                (logs st ++ (Frame.failure_line
                               <$> List.filter (fun r => negb (success r)) rs))).
Proof.
  induction rs as [|r rs IH]; intros st; simpl.
  - unfold ret. rewrite app_nil_r. by destruct st.
  - unfold bind at 1. destruct (success r); simpl.
    + unfold ret at 1. apply IH.
    + unfold log at 1. rewrite IH. simpl. by rewrite <- app_assoc.
Qed.

(** X17. [print_summary] never raises and only logs: nine INFO lines (the
    banner, the three counters and the success rate), and, when [failed] is
    positive, a blank line, the heading "Failed conversions:" and then one
    warning line per failed result, in the order of the result list, naming
    the file and its error message. *)
Theorem print_summary_lines (result : BatchResult) (st : St W) :
  exists head,
    print_summary result st
      = (Ok tt,
         mkSt (world st) (calls st)
           (logs st ++ head ++
            if failed result >? 0 then
              [(INFO, ""); (WARNING, "Failed conversions:")]
              ++ (Frame.failure_line
                    <$> List.filter (fun r => negb (success r)) (results result))
            else [])) /\
    length head = 9%nat /\
    Forall (fun e => e.1 = INFO) head.
Proof.
  unfold print_summary.
  do 9 (unfold bind at 1, log at 1; simpl).
  destruct (failed result >? 0).
  - do 2 (unfold bind at 1, log at 1; simpl).
    rewrite failure_lines_run. simpl. rewrite <- !app_assoc. simpl.
    eexists [_; _; _; _; _; _; _; _; _]. split; [reflexivity|].
    split; [done|]. by repeat constructor.
  - unfold ret. rewrite <- !app_assoc. simpl.
    eexists [_; _; _; _; _; _; _; _; _]. split; [reflexivity|].
    split; [done|]. by repeat constructor.
Qed.

(** X18. The calls of a whole run, once the logger is set up: every save
    is in format AVIF at the requested quality clamped into [0, 100]; the
    only directory created is the one given with [--output], and none is
    created without it; and when the collector finds no file, no call is
    made at all. *)
Theorem main_frame version (args : Args) (st st1 : St W) :
  setup_logger (verbose args) (log_file args) st = (Ok tt, st1) ->
  exists new,
    calls (main version args st).2 = calls st1 ++ new /\
    (forall out fmt q icc, CallSave out fmt q icc ∈ new ->
       fmt = "AVIF" /\ q = Spec.clamp_quality (quality args) /\ 0 <= q <= 100) /\
    (forall d, CallMkdir d ∈ new -> output args = Some d) /\
    ((collect_files
        (Batch.__init__ (mkImageConverter (Spec.clamp_quality (quality args)))
           (parallel args))
        (input args) (negb (no_recursive args)) st1).1 = Ok [] -> new = []).
Proof.
  intros Es.
  set (processor := Batch.__init__ (mkImageConverter (Spec.clamp_quality (quality args)))
                      (parallel args)).
  destruct (collect_files_reads processor (input args) (negb (no_recursive args)) st1)
    as [lgc Ec]. rewrite Ec. simpl.
  unfold main. unfold bind at 1. rewrite Es.
  unfold bind at 1, log at 1. simpl.
  unfold bind at 1, log at 1. simpl.
  unfold bind at 1.
  match goal with |- context [Converter.__init__ ?q ?s] =>
    destruct (init_spec q s) as [lgi ->] end.
  simpl. fold processor.
  unfold bind at 1.
  match goal with |- context [collect_files processor ?a ?b ?s] =>
    destruct (collect_files_reads processor a b s) as [lgf ->] end.
  simpl.
  set (files := Pure.collect (world st1) (input args) (negb (no_recursive args))).
  case_bool_decide as Hf.
  - run_m. exists []. rewrite app_nil_r. split_and!; try done.
    + by intros ???? ?%elem_of_nil.
    + by intros ? ?%elem_of_nil.
  - unfold bind at 1, log at 1. simpl. unfold bind at 1, log at 1. simpl.
    unfold bind at 1.
    match goal with |- context [process processor files ?a ?b ?c ?s] =>
      destruct (process_calls processor files a b c s) as (new & Hn & Hnew);
      destruct (process_spec processor files a b c s) as (rs & st3 & Ep & _) end.
    rewrite Ep in Hn |- *. simpl in Hn. unfold bind at 1.
    match goal with |- context [print_summary ?r ?s] =>
      destruct (print_summary_reads r s) as [lgp ->] end.
    simpl. exists new.
    assert (calls ((if (Pure.count_failure rs >? 0) && (Pure.count_success rs =? 0)
                    then ret 1
                    else if Pure.count_failure rs >? 0 then ret 2 else ret 0)
                     (mkSt (world st3) (calls st3) (logs st3 ++ lgp))).2
            = calls st3) as -> by (by repeat case_match).
    split; [done|]. rewrite Forall_forall in Hnew. split_and!.
    + intros out fmt q icc (f & _ & _ & -> & ->)%Hnew. simpl.
      unfold Spec.clamp_quality. split_and!; try done; lia.
    + by intros d (f & _ & ?)%Hnew.
    + intros [= E]. by destruct Hf.
Qed.

End cli_more.

Lemma main_frame_witness :
  setup_logger false None Toy.start = (Ok tt, Toy.start) /\
  exists new,
    calls (main "1.0.0"
             (mkArgs [of_string "pics"] None true 150 4 false false None false)
             Toy.start).2 = calls Toy.start ++ new /\
    forall out fmt q icc, CallSave out fmt q icc ∈ new ->
      fmt = "AVIF" /\ q = 100 /\ 0 <= q <= 100.
Proof.
  assert (H : setup_logger false None Toy.start = (Ok tt, Toy.start)) by reflexivity.
  split; [exact H|].
  destruct (main_frame "1.0.0"
              (mkArgs [of_string "pics"] None true 150 4 false false None false)
              Toy.start Toy.start H) as (new & Hn & Hs & _).
  exists new. split; [exact Hn|exact Hs].
Defined.

(** ** utils/logger.py: colouring the level name *)

Section logger_more.

Lemma startswith_inv t s :
  Str.startswith t s = true -> s = t +:+ Str.from (String.length t) s.
Proof.
  revert s. induction t as [|a t IH]; intros [|b s]; simpl; try done.
  intros [Ha%Ascii.eqb_eq Ht]%andb_true_iff. subst b.
  rewrite app_cons. f_equal. by apply IH.
Qed.

Lemma replace_first_absent old new s :
  Str.contains old s = false -> Logger.replace_first old new s = s.
Proof.
  induction s as [|a s IH]; simpl.
  - intros [-> _]%orb_false_iff. done.
  - intros [-> Hs]%orb_false_iff. f_equal. by apply IH.
Qed.

Lemma replace_first_present old new s :
  Str.contains old s = true ->
  exists pre post,
    s = pre +:+ old +:+ post /\
    Logger.replace_first old new s = pre +:+ new +:+ post /\
    forall pre' post', s = pre' +:+ old +:+ post' ->
                       (String.length pre <= String.length pre')%nat.
Proof.
  induction s as [|a s IH]; simpl.
  - rewrite orb_false_r. intros Hs. rewrite Hs. exists "", "".
    destruct old; [|done]. split_and!; [done..|simpl; lia].
  - destruct (Str.startswith old (String a s)) eqn:Hs; simpl.
    + intros _. exists "", (Str.from (String.length old) (String a s)).
      split_and!; [by apply startswith_inv|done|simpl; lia].
    + intros (pre & post & -> & -> & Hmin)%IH.
      exists (String a pre), post. split_and!; [done..|].
      intros [|b pre'] post' E.
      * rewrite E, app_nil_l, startswith_app in Hs. done.
      * rewrite !app_cons in E. injection E as _ E. simpl.
        apply Hmin in E. lia.
Qed.

Lemma colors_nonempty k c : Logger.COLORS !! k = Some c -> c <> "".
Proof.
  unfold Logger.COLORS. intros Hk.
  repeat (apply lookup_insert_Some in Hk as [[_ <-]|[_ Hk]]; [done|]).
  by apply lookup_singleton_Some in Hk as [_ <-].
Qed.

(** X19. [ColoredFormatter.format] wraps the first occurrence of the level
    name in the message of the base formatter between the colour of the
    level and the reset code, and leaves the rest of the message as it is.
    A message that does not contain the level name, or a level without a
    colour, is returned unchanged.  The five standard levels all have a
    colour. *)
Theorem format_colours_first_level_name (base_format : Logger.LogRecord -> string)
    (record : Logger.LogRecord) :
  let message := base_format record in
  let name := Logger.levelname record in
  (Logger.COLORS !! Logger.levelno record = None ->
   Logger.format base_format record = message) /\
  (Str.contains name message = false ->
   Logger.format base_format record = message) /\
  (forall color,
     Logger.COLORS !! Logger.levelno record = Some color ->
     Str.contains name message = true ->
     exists pre post,
       message = pre +:+ name +:+ post /\
       Logger.format base_format record
         = pre +:+ (color +:+ name +:+ Logger.RESET) +:+ post /\
       forall pre' post', message = pre' +:+ name +:+ post' ->
                          (String.length pre <= String.length pre')%nat) /\
  Forall (fun n => is_Some (Logger.COLORS !! n)) [10; 20; 30; 40; 50].
Proof.
  intros message name. unfold Logger.format. fold message name. split_and!.
  - intros ->. done.
  - intros Hc. case_match; [by apply replace_first_absent|done].
  - intros color Hk Hc. rewrite Hk. simpl.
    rewrite bool_decide_eq_false_2 by (by eapply colors_nonempty). simpl.
    by apply replace_first_present.
  - repeat (apply Forall_cons_2; [eexists; vm_compute; reflexivity|]).
    apply Forall_nil_2.
Qed.

End logger_more.

Lemma format_colours_first_level_name_witness :
  let base := fun r : Logger.LogRecord =>
                "12:00:00 | " +:+ Logger.levelname r +:+ " | WARNING: disk" in
  let record := Logger.mkLogRecord 30 "WARNING" in
  (Logger.COLORS !! 30 = Some (Logger.ESC +:+ "[33m") /\
   Str.contains "WARNING" (base record) = true) /\
  exists pre post,
    base record = pre +:+ "WARNING" +:+ post /\
    Logger.format base record
    = pre +:+ ((Logger.ESC +:+ "[33m") +:+ "WARNING" +:+ Logger.RESET) +:+ post.
Proof.
  intros base record.
  assert (H1 : Logger.COLORS !! Logger.levelno record = Some (Logger.ESC +:+ "[33m"))
    by (vm_compute; reflexivity).
  assert (H2 : Str.contains (Logger.levelname record) (base record) = true)
    by (vm_compute; reflexivity).
  split; [by split|].
  destruct (proj1 (proj2 (proj2 (format_colours_first_level_name base record)))
              _ H1 H2) as (pre & post & E1 & E2 & _).
  exists pre, post. split; [exact E1|exact E2].
Defined.

(** Only the first occurrence of the level name is coloured. *)
Example toy_format :
  Logger.format
    (fun r => "12:00:00 | " +:+ Logger.levelname r +:+ " | WARNING: disk")
    (Logger.mkLogRecord 30 "WARNING")
  = "12:00:00 | " +:+ Logger.ESC +:+ "[33mWARNING" +:+ Logger.ESC
    +:+ "[0m | WARNING: disk".
Proof. vm_compute. reflexivity. Qed.
